(** * celo-forno-block-out-range: the send-and-observe script [send.ts]

    A shallow embedding of [src/send.ts]: the JavaScript values and string
    operations the script relies on, the logging transport, the [main]
    function with its send loop, and the properties of the natural-language
    specification stated over them.

    The repository holds a second version of the script, in which the RPC
    traffic is logged from the fetch hooks of the HTTP transport instead of
    [loggingTransport]; its [main] has the same key check, loop and report,
    so what is proved of [main] below holds of both. *)

From Stdlib Require Import Bool Arith ZArith List Lia.
From Stdlib Require Import Strings.Ascii Strings.String Numbers.DecimalString.
Import ListNotations.
Open Scope list_scope.
Open Scope string_scope.
Open Scope nat_scope.

(** ** JavaScript strings

    A string is a sequence of UTF-16 code units.  The embedding keeps the
    code units below 256 (one [ascii] each, read as Latin-1): every text the
    script matches on ("block is out of range", "-32019", "success") lives
    there, and on that range [toLowerCase] is a character-wise map. *)

Module Js.

Definition in_range (lo hi n : nat) : bool := (lo <=? n) && (n <=? hi).

(** [String.prototype.toLowerCase] on one code unit below 256: A-Z and the
    Latin-1 capitals U+00C0..U+00DE (without the multiplication sign U+00D7)
    move up by 32, everything else is left alone. *)
Definition lower_char (c : ascii) : ascii :=
  let n := nat_of_ascii c in
  if in_range 65 90 n || (in_range 192 222 n && negb (n =? 215))
  then ascii_of_nat (n + 32)
  else c.

Fixpoint toLowerCase (s : string) : string :=
  match s with
  | EmptyString => EmptyString
  | String c t => String (lower_char c) (toLowerCase t)
  end.

(** [s.includes(search)]: [search] occurs in [s] at some position. *)
Fixpoint includes (s search : string) : bool :=
  prefix search s ||
  match s with
  | EmptyString => false
  | String _ t => includes t search
  end.

(** [s.slice(0, n)]. *)
Definition slice0 (n : nat) (s : string) : string := substring 0 n s.


(** The decimal text of a count (the length of an array or of a string). *)
Definition decimal (n : nat) : string := NilEmpty.string_of_uint (Nat.to_uint n).

(** ** JavaScript values

    The data that travels through the script as JSON-RPC results, request
    parameters and bodies: what [JSON.parse] can produce, plus [undefined].
    An object is the list of its own properties in enumeration order.

    A number is kept as the text JavaScript prints for it
    (Number::toString: "42", "-32019", "1.5", "-3.2019e+21", "NaN",
    "Infinity"): the script only prints numbers, tests them for truth and
    compares them with zero, and each of these is read off that text. *)
#[warnings="-register-all"]
Inductive value : Type :=
| VUndefined
| VNull
| VBool (b : bool)
| VNum (text : string)
| VStr (s : string)
| VArr (items : list value)
| VObj (props : list (string * value)).

(** The texts of the numbers that are not finite. *)
Definition not_finite (text : string) : bool :=
  (text =? "NaN")%string || (text =? "Infinity")%string || (text =? "-Infinity")%string.

(** ToBoolean, as used by [||], [?:] and [!]: of the numbers, zero (printed
    "0", also for -0) and NaN are false. *)
Definition truthy (v : value) : bool :=
  match v with
  | VUndefined | VNull => false
  | VBool b => b
  | VNum text => negb ((text =? "0")%string || (text =? "NaN")%string)
  | VStr s => negb (s =? "")%string
  | VArr _ | VObj _ => true
  end.

(** [a || b]. *)
Definition or_else (a b : value) : value := if truthy a then a else b.

(** Property read [o.k] on an object; [undefined] when absent. *)
Fixpoint get_prop (k : string) (props : list (string * value)) : value :=
  match props with
  | [] => VUndefined
  | (k', v) :: rest => if (k' =? k)%string then v else get_prop k rest
  end.

(** Whether an object has an own property [k]. *)
Fixpoint has_prop (k : string) (props : list (string * value)) : bool :=
  match props with
  | [] => false
  | (k', _) :: rest => (k' =? k)%string || has_prop k rest
  end.

(** [v.k] for the property names the script reads, none of which exists on
    a primitive or on an array ([length] is handled where it is read). *)
Definition field (k : string) (v : value) : value :=
  match v with
  | VObj props => get_prop k props
  | _ => VUndefined
  end.

Definition quote_char : ascii := ascii_of_nat 34.
Definition backslash : ascii := ascii_of_nat 92.

Definition hex_digit (n : nat) : ascii :=
  if n <? 10 then ascii_of_nat (48 + n) else ascii_of_nat (87 + n).

(** The escape of one code unit inside a JSON string literal
    (QuoteJSONString). *)
Definition json_escape (c : ascii) : string :=
  let n := nat_of_ascii c in
  if n =? 34 then String backslash (String quote_char "")
  else if n =? 92 then String backslash (String backslash "")
  else if n =? 8 then String backslash "b"
  else if n =? 9 then String backslash "t"
  else if n =? 10 then String backslash "n"
  else if n =? 12 then String backslash "f"
  else if n =? 13 then String backslash "r"
  else if n <? 32 then
    String backslash ("u00" ++ String (hex_digit (n / 16))
                                  (String (hex_digit (n mod 16)) ""))
  else String c "".

Fixpoint json_escape_all (s : string) : string :=
  match s with
  | EmptyString => EmptyString
  | String c t => json_escape c ++ json_escape_all t
  end.

Definition json_quote (s : string) : string :=
  String quote_char (json_escape_all s ++ String quote_char "").

(** The text of an array and of an object, given the printer of their
    members: inside an array [undefined] prints as [null]; inside an object a
    property whose value is [undefined] is left out. *)
Definition json_array (str : value -> option string) (items : list value) : string :=
  "[" ++ concat "," (map (fun x => match str x with
                                   | Some s => s
                                   | None => "null"
                                   end) items) ++ "]".

Definition json_object (str : value -> option string)
                       (props : list (string * value)) : string :=
  "{" ++ concat "," (flat_map (fun p => match str (snd p) with
                                        | Some s => [json_quote (fst p) ++ ":" ++ s]
                                        | None => []
                                        end) props) ++ "}".

(** [JSON.stringify(v)] for such data: [None] stands for the result
    [undefined]; a number that is not finite prints as [null]. *)
Fixpoint stringify (v : value) : option string :=
  match v with
  | VUndefined => None
  | VNull => Some "null"
  | VBool true => Some "true"
  | VBool false => Some "false"
  | VNum text => Some (if not_finite text then "null" else text)
  | VStr s => Some (json_quote s)
  | VArr items => Some (json_array stringify items)
  | VObj props => Some (json_object stringify props)
  end.

(** [JSON.stringify] of an array, which is always a string. *)
Definition stringify_array (items : list value) : string := json_array stringify items.

End Js.

Import Js.

(** ** Errors

    What a [catch] clause receives is any value.  It is kept by what the
    script reads of it: its [message] (any data: a string for an [Error]
    object, [undefined] when there is none, but also a number or an object)
    and its [details].  The details are data, or one of the values
    [JSON.stringify] does not turn into text: a BigInt or an object that
    holds one or holds itself (it throws), a function (it returns
    [undefined]).  [ThrownNullish] is a thrown [null] or [undefined]. *)
Inductive detail : Type :=
| Data (v : value)
| BigInt (text : string)         (* a BigInt, printed [text] by ToString *)
| Unserializable                 (* an object JSON.stringify throws on *)
| Function (source : string).    (* a function, printed as its source *)

Inductive thrown : Type :=
| ThrownNullish
| ThrownError (message : value) (details : detail).

(** [error?.message]. *)
Definition message_of (error : thrown) : value :=
  match error with
  | ThrownNullish => VUndefined
  | ThrownError m _ => m
  end.

(** [error?.details]. *)
Definition details_of (error : thrown) : detail :=
  match error with
  | ThrownNullish => Data VUndefined
  | ThrownError _ d => d
  end.

(** A [TypeError] raised by the runtime; the wording is the engine's. *)
Definition type_error (what : string) : thrown :=
  ThrownError (VStr what) (Data VUndefined).

Definition not_a_function (what : string) : thrown :=
  type_error (what ++ " is not a function").

(** ToString, as applied by template literals and [String(v)].  An array
    joins the texts of its items ([undefined] and [null] give the empty
    text).  An object without an own [toString] property prints as
    "[object Object]"; with one, which in data is never a function, neither
    it nor [valueOf] yields a primitive and a [TypeError] is thrown. *)
Definition cannot_convert : thrown :=
  type_error "Cannot convert object to primitive value".

Fixpoint to_string (v : value) : string + thrown :=
  match v with
  | VUndefined => inl "undefined"
  | VNull => inl "null"
  | VBool true => inl "true"
  | VBool false => inl "false"
  | VNum text => inl text
  | VStr s => inl s
  | VArr items =>
      (fix join (l : list value) : string + thrown :=
         match l with
         | [] => inl ""
         | x :: rest =>
             match (match x with
                    | VUndefined | VNull => inl ""
                    | _ => to_string x
                    end) with
             | inr e => inr e
             | inl s =>
                 match rest with
                 | [] => inl s
                 | _ => match join rest with
                        | inr e => inr e
                        | inl t => inl (s ++ "," ++ t)
                        end
                 end
             end
         end) items
  | VObj props => if has_prop "toString" props then inr cannot_convert
                  else inl "[object Object]"
  end.

(** ToBoolean and ToString of the details of an error. *)
Definition detail_truthy (d : detail) : bool :=
  match d with
  | Data v => truthy v
  | BigInt text => negb (text =? "0")%string
  | Unserializable | Function _ => true
  end.

Definition detail_to_string (d : detail) : string + thrown :=
  match d with
  | Data v => to_string v
  | BigInt text => inl text
  | Unserializable => inl "[object Object]"
  | Function source => inl source
  end.

(** ** Console output

    One constructor per print statement of the script, carrying the values
    interpolated into its template. *)
Inductive line : Type :=
| RpcRequestLine (method paramsStr : string)   (* `  [RPC] ${method}${paramsStr}` *)
| RpcResultLine (summary : string)             (* `        -> ${summary}` *)
| RpcErrorLine (errorMsg : string)             (* `        -> ERROR: ${errorMsg}` *)
| MissingPrivateKey      (* "Error: PRIVATE_KEY environment variable is required" *)
| UsageHint              (* "Usage: PRIVATE_KEY=0x... RPC_URL=https://... yarn start" *)
| AccountLine (address : string)                 (* "Account:", account.address *)
| RpcUrlLine (rpcUrl : string)                   (* "RPC URL:", rpcUrl *)
| BlankLine                                      (* console.log() *)
| BalanceLine (formatted : string)               (* `Balance: ${...} CELO` *)
| StartingLine (numSends : nat)                  (* `\nStarting ${numSends} sends...\n` *)
| SendingLine (i numSends : nat)                 (* `[i/n] Sending 0.001 CELO...` *)
| WaitingLine (i numSends : nat) (hash : string) (* `[i/n] Waiting for tx: ${hash}` *)
| SuccessLine (i numSends : nat)                 (* `[i/n] (check mark) Success` *)
| FailedStatusLine (i numSends : nat)            (* `[i/n] (cross) Failed: tx status not success` *)
| FailedBlockOutOfRangeLine (i numSends : nat)   (* `[i/n] (cross) Failed: BLOCK OUT OF RANGE error` *)
| FailedOtherLine (i numSends : nat) (errorMessage : string)
                                                 (* `[i/n] (cross) Failed: ${errorMessage}` *)
| ErrorDetailsLine (i numSends : nat) (error : thrown)
                                                 (* `[i/n] Error details:`, error *)
| ResultsHeader                                  (* "\n=== RESULTS ===" *)
| TotalSendsLine (total : nat)                   (* `Total sends: ${results.total}` *)
| SuccessfulLine (successful : nat) (percent : string)
                                                 (* `Successful: ${n} (${percent}%)` *)
| FailedLine (failed : nat) (percent : string)   (* `Failed: ${n} (${percent}%)` *)
| BlockOutOfRangeLine (n : nat)       (* `  - Block out of range errors: ${n}` *)
| OtherErrorsLine (n : nat)                      (* `  - Other errors: ${n}` *)
| UncaughtLine (error : thrown).                 (* console.error(error) *)

(** ** The logging transport ([loggingTransport])

    [request] is an [async] function: it runs up to its [await] of the
    underlying HTTP transport, is suspended until that promise settles, and
    then runs to its end without another suspension point. *)
Module LoggingTransport.

Record rpc_args : Type := { method : string; params : option (list value) }.

(** How the promise of [httpTransport.request(args)] settles. *)
Inductive settled : Type :=
| Resolved (result : value)
| Rejected (error : thrown).

(** The text appended to the method in the request line. *)
Definition paramsStr (args : rpc_args) : string :=
  let params := match params args with Some l => l | None => [] end in
  if 0 <? List.length params then
    " " ++ slice0 80 (stringify_array params)
        ++ (if 80 <? String.length (stringify_array params) then "..." else "")
  else "".

(** Sequencing of steps that return a text or throw. *)
Definition and_then {A B : Type} (r : A + thrown) (k : A -> B + thrown) : B + thrown :=
  match r with
  | inl a => k a
  | inr e => inr e
  end.

(** [h ? h.slice(0, 10) + "..." : "none"]: a string is cut, an array is
    cut and joined, anything else has no [slice]. *)
Definition short_hash (what : string) (h : value) : string + thrown :=
  if truthy h then
    match h with
    | VStr s => inl (slice0 10 s ++ "...")
    | VArr items =>
        and_then (to_string (VArr (firstn 10 items))) (fun s => inl (s ++ "..."))
    | _ => inr (not_a_function (what ++ ".slice"))
    end
  else inl "none".

(** [result.transactions?.length || 0] *)
Definition txCount (result : value) : value :=
  let len :=
    match field "transactions" result with
    | VArr items => VNum (decimal (List.length items))
    | VStr s => VNum (decimal (String.length s))
    | VObj props => get_prop "length" props
    | _ => VUndefined
    end in
  or_else len (VNum "0").

Definition is_undefined (v : value) : bool :=
  match v with VUndefined => true | _ => false end.

(** The summary of a result whose [typeof] is "object" and which is not
    [null]; the interpolations of a template are converted from left to
    right. *)
Definition object_summary (result : value) : string + thrown :=
  if negb (is_undefined (field "status" result)) then
    and_then (to_string (field "status" result)) (fun status =>
    and_then (to_string (field "blockNumber" result)) (fun blockNumber =>
    inl ("status=" ++ status ++ " block=" ++ blockNumber)))
  else if negb (is_undefined (field "number" result)) then
    and_then (short_hash "result.hash" (field "hash" result)) (fun hash =>
    and_then (short_hash "result.parentHash" (field "parentHash" result)) (fun parentHash =>
    and_then (to_string (field "number" result)) (fun number =>
    and_then (to_string (txCount result)) (fun txs =>
    inl ("block=" ++ number ++ " hash=" ++ hash ++ " parent=" ++ parentHash
          ++ " txs=" ++ txs)))))
  else if negb (is_undefined (field "blockNumber" result)) then
    and_then (to_string (field "blockNumber" result)) (fun blockNumber =>
    inl ("blockNumber=" ++ blockNumber))
  else
    match stringify result with
    | Some s => inl (slice0 60 s)
    | None => inr (not_a_function "JSON.stringify(...).slice")
    end.

(** The "Format result summary" block of the [try] branch. *)
Definition summarize (result : value) : string + thrown :=
  match result with
  | VNull => inl "null"
  | VStr s => inl (if 60 <? String.length s then slice0 60 s ++ "..." else s)
  | VArr _ | VObj _ => object_summary result
  | VUndefined => inl "undefined"
  | VBool true => inl "true"
  | VBool false => inl "false"
  | VNum text => inl text
  end.

(** [error?.details || error?.message || "Unknown error"], as interpolated
    into the error line. *)
Definition errorMsg (error : thrown) : string + thrown :=
  if detail_truthy (details_of error) then detail_to_string (details_of error)
  else if truthy (message_of error) then to_string (message_of error)
  else inl "Unknown error".

(** The [catch] branch: the request line, the error line, then the error
    is thrown again.  When the error line cannot be built, the request line
    is out already and the [TypeError] of the template is what is thrown. *)
Definition request_catch (args : rpc_args) (error : thrown) : list line * settled :=
  match errorMsg error with
  | inl msg =>
      ([RpcRequestLine (method args) (paramsStr args); RpcErrorLine msg], Rejected error)
  | inr e => ([RpcRequestLine (method args) (paramsStr args)], Rejected e)
  end.

(** [request], first part: from the call to the [await].  Nothing is
    printed; the HTTP request [args] is handed to the underlying transport. *)
Definition request_start (args : rpc_args) : list line := [].

(** [request], second part: from the settlement of the awaited promise to
    the end of the function.  Returns the lines printed and how the promise
    of [request] itself settles. *)
Definition request_resume (args : rpc_args) (outcome : settled) : list line * settled :=
  match outcome with
  | Resolved result =>
      match summarize result with
      | inl summary =>
          ([RpcRequestLine (method args) (paramsStr args); RpcResultLine summary],
           Resolved result)
      | inr error => request_catch args error
      end
  | Rejected error => request_catch args error
  end.

(** *** Concurrent callers

    JavaScript runs each part of an [async] function to completion; parts
    of different calls interleave only at [await].  A schedule lists, in the
    order the event loop runs them, the calls that are started and the
    settlements of their HTTP requests. *)
Inductive action : Type :=
| Invoke (id : nat) (args : rpc_args)
| Settle (id : nat) (outcome : settled).

Record loop_state : Type := {
  in_flight : list (nat * rpc_args);        (* calls suspended at the await *)
  console : list line                       (* what has been printed *)
}.

Definition idle : loop_state := {| in_flight := []; console := [] |}.

Fixpoint take_call (id : nat) (calls : list (nat * rpc_args))
  : option (rpc_args * list (nat * rpc_args)) :=
  match calls with
  | [] => None
  | (id', args) :: rest =>
      if id' =? id then Some (args, rest)
      else match take_call id rest with
           | Some (a, rest') => Some (a, (id', args) :: rest')
           | None => None
           end
  end.

Definition step (st : loop_state) (a : action) : loop_state :=
  match a with
  | Invoke id args =>
      {| in_flight := in_flight st ++ [(id, args)];
         console := console st ++ request_start args |}
  | Settle id outcome =>
      match take_call id (in_flight st) with
      | None => st          (* no call is waiting for this settlement *)
      | Some (args, rest) =>
          {| in_flight := rest;
             console := console st ++ fst (request_resume args outcome) |}
      end
  end.

Definition run (schedule : list action) (st : loop_state) : loop_state :=
  fold_left step schedule st.

(** *** What the console should show

    Read off the schedule alone: a settlement belongs to the oldest call
    that was started under its id and has not been settled yet. *)
Fixpoint drop_call (id : nat) (waiting : list (nat * rpc_args)) : list (nat * rpc_args) :=
  match waiting with
  | [] => []
  | c :: rest => if fst c =? id then rest else c :: drop_call id rest
  end.

Fixpoint exchanges (waiting : list (nat * rpc_args)) (schedule : list action)
  : list (rpc_args * settled) :=
  match schedule with
  | [] => []
  | Invoke id args :: rest => exchanges (waiting ++ [(id, args)]) rest
  | Settle id outcome :: rest =>
      match find (fun c => fst c =? id) waiting with
      | Some c => (snd c, outcome) :: exchanges (drop_call id waiting) rest
      | None => exchanges waiting rest
      end
  end.

(** The parameters as the request line shows them: nothing when there are
    none, else a blank and their JSON text, cut after 80 characters and
    then marked with three dots. *)
Definition truncated_params (args : rpc_args) : string :=
  match params args with
  | None | Some [] => ""
  | Some l =>
      let json := stringify_array l in
      " " ++ (if String.length json <=? 80 then json else slice0 80 json ++ "...")
  end.

(** The line for the outcome of a call: the summary of the result, or the
    text of the error, be it the one the call was rejected with or the one
    the summary threw. *)
Definition error_text (error : thrown) : string :=
  match errorMsg error with
  | inl msg => msg
  | inr _ => ""
  end.

Definition outcome_line (outcome : settled) : line :=
  match outcome with
  | Resolved result =>
      match summarize result with
      | inl summary => RpcResultLine summary
      | inr error => RpcErrorLine (error_text error)
      end
  | Rejected error => RpcErrorLine (error_text error)
  end.

(** The text of the outcome line can be built. *)
Definition printable_outcome (outcome : settled) : bool :=
  match outcome with
  | Resolved result =>
      match summarize result with
      | inl _ => true
      | inr error => match errorMsg error with inl _ => true | inr _ => false end
      end
  | Rejected error => match errorMsg error with inl _ => true | inr _ => false end
  end.

(** The lines of one exchange: the request line and, when its text can be
    built, the outcome line. *)
Definition exchange_lines (x : rpc_args * settled) : list line :=
  RpcRequestLine (method (fst x)) (truncated_params (fst x))
  :: (if printable_outcome (snd x) then [outcome_line (snd x)] else []).

Definition printable (a : action) : bool :=
  match a with
  | Settle _ outcome => printable_outcome outcome
  | Invoke _ _ => true
  end.

(** A console made of request lines, each immediately followed by a result
    or error line. *)
Inductive paired : list line -> Prop :=
| paired_nil : paired []
| paired_result m p s rest :
    paired rest -> paired (RpcRequestLine m p :: RpcResultLine s :: rest)
| paired_error m p e rest :
    paired rest -> paired (RpcRequestLine m p :: RpcErrorLine e :: rest).

End LoggingTransport.

(** ** The script's [main]

    The chain client (viem) and the network behind it are external: the
    section takes them as parameters.  [W] is the state of the outside world;
    a client call reads and advances it and either returns or throws. *)

Record env : Type := { PRIVATE_KEY : option string; RPC_URL : option string }.

Record account : Type := { address : string }.

Record receipt : Type := { status : string }.

(** A call of the chain client together with what it returned or threw.
    The RPC exchanges made inside the call, and the lines the logging
    transport prints for them, belong to the call. *)
Inductive client_call : Type :=
| GetBalance (rpcUrl address : string) (r : Z + thrown)
| SendTransaction (rpcUrl from to : string) (amount : Z) (r : string + thrown)
| WaitForTransactionReceipt (rpcUrl hash : string) (r : receipt + thrown).

Inductive event : Type :=
| Log (l : line)              (* console.log *)
| LogError (l : line)         (* console.error *)
| Call (c : client_call)
| Sleep (ms : nat).           (* await new Promise(resolve => setTimeout(resolve, ms)) *)

(** The [results] object of [main]. *)
Record Results : Type := {
  total : nat;
  successful : nat;
  failed : nat;
  blockOutOfRangeErrors : nat;
  otherErrors : nat
}.

Definition incr_successful (r : Results) : Results :=
  {| total := total r; successful := S (successful r); failed := failed r;
     blockOutOfRangeErrors := blockOutOfRangeErrors r; otherErrors := otherErrors r |}.

Definition incr_failed (r : Results) : Results :=
  {| total := total r; successful := successful r; failed := S (failed r);
     blockOutOfRangeErrors := blockOutOfRangeErrors r; otherErrors := otherErrors r |}.

Definition incr_blockOutOfRangeErrors (r : Results) : Results :=
  {| total := total r; successful := successful r; failed := failed r;
     blockOutOfRangeErrors := S (blockOutOfRangeErrors r); otherErrors := otherErrors r |}.

Definition incr_otherErrors (r : Results) : Results :=
  {| total := total r; successful := successful r; failed := failed r;
     blockOutOfRangeErrors := blockOutOfRangeErrors r; otherErrors := S (otherErrors r) |}.

Definition new_results (numSends : nat) : Results :=
  {| total := numSends; successful := 0; failed := 0;
     blockOutOfRangeErrors := 0; otherErrors := 0 |}.

(** What the script takes from outside, over a state [W] of the outside
    world. *)
Record Externals (W : Type) : Type := {
  (* viem's [privateKeyToAccount], [formatUnits] and [parseEther] *)
  privateKeyToAccount : string -> account + thrown;
  formatUnits : Z -> nat -> string;
  parseEther : string -> Z;
  (* the actions of the client built by [createWalletClient] for an RPC URL
     and an account *)
  getBalance : string -> string -> W -> (Z + thrown) * W;
  sendTransaction : string -> account -> string -> Z -> W -> (string + thrown) * W;
  waitForTransactionReceipt : string -> string -> W -> (receipt + thrown) * W;
  (* [(count / total * 100).toFixed(2)] when [total] is not zero: the
     rendering of a finite double, left to the runtime *)
  toFixed2 : nat -> nat -> string
}.

Arguments privateKeyToAccount {W}.
Arguments formatUnits {W}.
Arguments parseEther {W}.
Arguments getBalance {W}.
Arguments sendTransaction {W}.
Arguments waitForTransactionReceipt {W}.
Arguments toFixed2 {W}.

Section Main.

Context {W : Type} (ext : Externals W).

(** What [main] can observe and change: the outside world, the output so
    far (oldest first) and its [results] object (all zero until [main]
    creates it). *)
Record state : Type := {
  world : W;
  trace : list event;
  results : Results
}.

(** Computations that change the state and return or throw; a throw keeps
    the changes made before it. *)
Definition M (A : Type) : Type := state -> (A + thrown) * state.

Definition ret {A} (a : A) : M A := fun st => (inl a, st).

Definition throw {A} (e : thrown) : M A := fun st => (inr e, st).

Definition bind {A B} (m : M A) (k : A -> M B) : M B :=
  fun st => match m st with
            | (inl a, st') => k a st'
            | (inr e, st') => (inr e, st')
            end.

(** [try { body } catch (error) { handler }] *)
Definition try_catch {A} (body : M A) (handler : thrown -> M A) : M A :=
  fun st => match body st with
            | (inl a, st') => (inl a, st')
            | (inr e, st') => handler e st'
            end.

Notation "x <- m ;; k" := (bind m (fun x => k))
  (at level 61, m at next level, right associativity).
Notation "m ;; k" := (bind m (fun _ => k))
  (at level 61, right associativity).

Definition emit (e : event) : M unit :=
  fun st => (inl tt, {| world := world st; trace := trace st ++ [e]; results := results st |}).

Definition console_log (l : line) : M unit := emit (Log l).
Definition console_error (l : line) : M unit := emit (LogError l).

Definition update_results (f : Results -> Results) : M unit :=
  fun st => (inl tt, {| world := world st; trace := trace st; results := f (results st) |}).

Definition get_results : M Results := fun st => (inl (results st), st).

(** A client call: the world answers, the call and its outcome are
    recorded, and the outcome is returned or thrown. *)
Definition call {A} (action : W -> (A + thrown) * W) (record : A + thrown -> client_call)
  : M A :=
  fun st =>
    let (r, w') := action (world st) in
    (r, {| world := w'; trace := trace st ++ [Call (record r)]; results := results st |}).

Definition liftE {A} (r : A + thrown) : M A :=
  match r with inl a => ret a | inr e => throw e end.

(** [error?.message?.toLowerCase() || ""]: a string has the method, a
    missing message ends the chain, and any other value has no
    [toLowerCase], so that the call throws. *)
Definition errorMessage (error : thrown) : string + thrown :=
  match message_of error with
  | VUndefined | VNull => inl ""
  | VStr m => inl (toLowerCase m)
  | _ => inr (not_a_function "error?.message?.toLowerCase")
  end.

(** [JSON.stringify(error?.details || {})]: the text, [None] for the
    result [undefined], or the [TypeError] it throws. *)
Definition details_json (error : thrown) : option string + thrown :=
  if detail_truthy (details_of error) then
    match details_of error with
    | Data v => inl (stringify v)
    | BigInt _ => inr (type_error "Do not know how to serialize a BigInt")
    | Unserializable => inr (type_error "Converting circular structure to JSON")
    | Function _ => inl None
    end
  else inl (stringify (VObj [])).

(** [JSON.stringify(error?.details || {}).toLowerCase()]; calling
    [toLowerCase] on a result [undefined] throws a [TypeError]. *)
Definition errorDetails (error : thrown) : string + thrown :=
  match details_json error with
  | inl (Some s) => inl (toLowerCase s)
  | inl None => inr (not_a_function "JSON.stringify(...).toLowerCase")
  | inr e => inr e
  end.

(** The condition of the [if] in the [catch] clause. *)
Definition isBlockOutOfRange (errorMessage errorDetails : string) : bool :=
  includes errorMessage "block is out of range"
  || includes errorDetails "block is out of range"
  || includes errorDetails "-32019".

(** The [catch] clause of the loop body. *)
Definition on_error (i numSends : nat) (error : thrown) : M unit :=
  update_results incr_failed ;;
  errorMessage <- liftE (errorMessage error) ;;
  errorDetails <- liftE (errorDetails error) ;;
  (if isBlockOutOfRange errorMessage errorDetails
   then update_results incr_blockOutOfRangeErrors ;;
        console_log (FailedBlockOutOfRangeLine i numSends)
   else update_results incr_otherErrors ;;
        console_log (FailedOtherLine i numSends errorMessage)) ;;
  console_error (ErrorDetailsLine i numSends error).

(** The [try] block of the loop body. *)
Definition attempt (rpcUrl : string) (acct : account) (i numSends : nat) : M unit :=
  console_log (SendingLine i numSends) ;;
  hash <- call (sendTransaction ext rpcUrl acct (address acct) (parseEther ext "0.001"))
               (SendTransaction rpcUrl (address acct) (address acct) (parseEther ext "0.001")) ;;
  console_log (WaitingLine i numSends hash) ;;
  rcpt <- call (waitForTransactionReceipt ext rpcUrl hash)
               (WaitForTransactionReceipt rpcUrl hash) ;;
  if (status rcpt =? "success")%string
  then update_results incr_successful ;; console_log (SuccessLine i numSends)
  else update_results incr_failed ;; console_log (FailedStatusLine i numSends).

(** One pass through the body of the [for] loop. *)
Definition iteration (rpcUrl : string) (acct : account) (i numSends : nat) : M unit :=
  try_catch (attempt rpcUrl acct i numSends) (on_error i numSends) ;;
  if i <? numSends then emit (Sleep 500) else ret tt.

(** [for (let i = ...; i <= numSends; i++) { ... }] from the current value
    of [i]; [fuel] bounds the number of passes. *)
Fixpoint for_loop (rpcUrl : string) (acct : account) (numSends fuel i : nat) : M unit :=
  match fuel with
  | 0 => ret tt
  | S fuel' =>
      if i <=? numSends
      then iteration rpcUrl acct i numSends ;;
           for_loop rpcUrl acct numSends fuel' (S i)
      else ret tt
  end.

(** The whole loop: [numSends] passes are all it can make from [i = 1]. *)
Definition send_loop (rpcUrl : string) (acct : account) (numSends : nat) : M unit :=
  for_loop rpcUrl acct numSends numSends 1.

(** [((count / total) * 100).toFixed(2)]: [0/0] is [NaN], [n/0] is
    [Infinity], and [toFixed] prints those by name. *)
Definition percent (count total : nat) : string :=
  match total, count with
  | 0, 0 => "NaN"
  | 0, S _ => "Infinity"
  | S _, _ => toFixed2 ext count total
  end.

(** The "=== RESULTS ===" block. *)
Definition report : M unit :=
  console_log ResultsHeader ;;
  r <- get_results ;;
  console_log (TotalSendsLine (total r)) ;;
  console_log (SuccessfulLine (successful r) (percent (successful r) (total r))) ;;
  console_log (FailedLine (failed r) (percent (failed r) (total r))) ;;
  console_log (BlockOutOfRangeLine (blockOutOfRangeErrors r)) ;;
  console_log (OtherErrorsLine (otherErrors r)).

(** [main] after the check of [PRIVATE_KEY], with the number of sends as a
    parameter. *)
Definition main_body (numSends : nat) (rpcUrl privateKey : string) : M unit :=
  acct <- liftE (privateKeyToAccount ext privateKey) ;;
  console_log (AccountLine (address acct)) ;;
  console_log (RpcUrlLine rpcUrl) ;;
  console_log BlankLine ;;
  balance <- call (getBalance ext rpcUrl (address acct)) (GetBalance rpcUrl (address acct)) ;;
  console_log (BalanceLine (formatUnits ext balance 18)) ;;
  update_results (fun _ => new_results numSends) ;;
  console_log (StartingLine numSends) ;;
  send_loop rpcUrl acct numSends ;;
  report.

(** [process.env.RPC_URL || "https://forno.celo.org"] *)
Definition rpcUrl_of (e : env) : string :=
  match RPC_URL e with
  | Some u => if (u =? "")%string then "https://forno.celo.org" else u
  | None => "https://forno.celo.org"
  end.

Definition initial (w : W) : state :=
  {| world := w; trace := []; results := new_results 0 |}.

(** The process from start to exit: [main()] with its check of
    [PRIVATE_KEY], and the top-level [.catch].  Returns the exit status and
    the final state. *)
Definition run_process (numSends : nat) (e : env) (w : W) : nat * state :=
  match PRIVATE_KEY e with
  | None | Some EmptyString =>
      (1, {| world := w;
             trace := [LogError MissingPrivateKey; LogError UsageHint];
             results := new_results 0 |})
  | Some privateKey =>
      match main_body numSends (rpcUrl_of e) privateKey (initial w) with
      | (inl _, st) => (0, st)
      | (inr error, st) =>
          (1, {| world := world st;
                 trace := trace st ++ [LogError (UncaughtLine error)];
                 results := results st |})
      end
  end.

(** [const numSends = 100] *)
Definition main (e : env) (w : W) : nat * state := run_process 100 e w.

End Main.

Arguments state : clear implicits.
Arguments M : clear implicits.

(** ** Reading a trace

    The outcome of a pass is read off the result line it printed; the passes
    started and the transactions submitted are read off the trace as well. *)
Inductive outcome : Type :=
| Success                 (* the receipt has status "success" *)
| StatusNotSuccess        (* a receipt with another status *)
| BlockOutOfRange         (* an error that matched *)
| Other.                  (* an error that did not match *)

Definition outcome_eq_dec (a b : outcome) : {a = b} + {a <> b}.
Proof. decide equality. Defined.

Definition event_outcome (e : event) : list outcome :=
  match e with
  | Log (SuccessLine _ _) => [Success]
  | Log (FailedStatusLine _ _) => [StatusNotSuccess]
  | Log (FailedBlockOutOfRangeLine _ _) => [BlockOutOfRange]
  | Log (FailedOtherLine _ _ _) => [Other]
  | _ => []
  end.

Definition outcomes (evs : list event) : list outcome := flat_map event_outcome evs.

Definition count (o : outcome) (evs : list event) : nat :=
  count_occ outcome_eq_dec (outcomes evs) o.

(** The indices [i] of the passes that were started. *)
Definition started (evs : list event) : list nat :=
  flat_map (fun e => match e with Log (SendingLine i _) => [i] | _ => [] end) evs.

Definition is_send (e : event) : bool :=
  match e with Call (SendTransaction _ _ _ _ _) => true | _ => false end.

Definition is_call (e : event) : bool :=
  match e with Call _ => true | _ => false end.

(** The number of transactions submitted. *)
Definition sends (evs : list event) : nat := List.length (filter is_send evs).

(** What the branch taken for an outcome does to the [results] object. *)
Definition tally (r : Results) (o : outcome) : Results :=
  match o with
  | Success => incr_successful r
  | StatusNotSuccess => incr_failed r
  | BlockOutOfRange => incr_blockOutOfRangeErrors (incr_failed r)
  | Other => incr_otherErrors (incr_failed r)
  end.

(** The lowered message the [catch] clause works with, when there is one. *)
Definition message_text (error : thrown) : string :=
  match errorMessage error with
  | inl m => m
  | inr _ => ""
  end.

(** The state the [catch] clause leaves, by the value of its condition. *)
Definition after_error {W : Type} (i numSends : nat) (error : thrown) (matched : bool)
                       (st : state W) : state W :=
  {| world := world st;
     trace := trace st ++
       [Log (if matched then FailedBlockOutOfRangeLine i numSends
             else FailedOtherLine i numSends (message_text error));
        LogError (ErrorDetailsLine i numSends error)];
     results := tally (results st) (if matched then BlockOutOfRange else Other) |}.

(** The counters after [k] completed passes. *)
Definition counters_invariant (k : nat) (r : Results) : Prop :=
  blockOutOfRangeErrors r + otherErrors r <= failed r
  /\ successful r + failed r = k.

(** What [main] prints before the loop and what [report] prints after it. *)
Definition preamble {W : Type} (ext : Externals W) (numSends : nat) (rpcUrl : string)
                    (acct : account) (balance : Z) : list event :=
  [Log (AccountLine (address acct)); Log (RpcUrlLine rpcUrl); Log BlankLine;
   Call (GetBalance rpcUrl (address acct) (inl balance));
   Log (BalanceLine (formatUnits ext balance 18));
   Log (StartingLine numSends)].

Definition report_lines {W : Type} (ext : Externals W) (r : Results) : list event :=
  [Log ResultsHeader;
   Log (TotalSendsLine (total r));
   Log (SuccessfulLine (successful r) (percent ext (successful r) (total r)));
   Log (FailedLine (failed r) (percent ext (failed r) (total r)));
   Log (BlockOutOfRangeLine (blockOutOfRangeErrors r));
   Log (OtherErrorsLine (otherErrors r))].

(** The percentages a trace reports. *)
Definition percents (evs : list event) : list string :=
  flat_map (fun e => match e with
                     | Log (SuccessfulLine _ p) | Log (FailedLine _ p) => [p]
                     | _ => []
                     end) evs.

(** ** A scripted outside world

    Used to run the script on concrete inputs: the world is the list of what
    the coming passes will meet. *)
Module Scripted.

Inductive pass : Type :=
| SendThrows (error : thrown)                  (* sendTransaction throws *)
| WaitThrows (hash : string) (error : thrown)  (* the wait for the receipt throws *)
| Receipt (hash : string) (status : string).   (* a receipt arrives *)

Definition exhausted : thrown :=
  ThrownError (VStr "script exhausted") (Data VUndefined).

Definition two_digits (n : nat) : string :=
  (if n <? 10 then "0" else "") ++ decimal n.

(** Stands in for [toFixed(2)] on a finite percentage: the exact quotient
    rounded to hundredths. *)
Definition fixed2 (count total : nat) : string :=
  let hundredths := (2 * 100 * 100 * count + total) / (2 * total) in
  decimal (hundredths / 100) ++ "." ++ two_digits (hundredths mod 100).

Definition ext : Externals (list pass) := {|
  privateKeyToAccount := fun _ =>
    inl {| address := "0x6AD01Ac6841b67f27DC1A039FefBF5804003d6a4" |};
  formatUnits := fun wei decimals =>
    NilEmpty.string_of_int (Z.to_int wei) ++ "e-" ++ decimal decimals;
  parseEther := fun _ => 1000000000000000%Z;
  getBalance := fun _ _ w => (inl 1000000000000000000%Z, w);
  sendTransaction := fun _ _ _ _ w =>
    match w with
    | SendThrows error :: rest => (inr error, rest)
    | WaitThrows hash _ :: _ => (inl hash, w)
    | Receipt hash _ :: _ => (inl hash, w)
    | [] => (inr exhausted, [])
    end;
  waitForTransactionReceipt := fun _ _ w =>
    match w with
    | WaitThrows _ error :: rest => (inr error, rest)
    | Receipt _ status :: rest => (inl {| status := status |}, rest)
    | _ => (inr exhausted, w)
    end;
  toFixed2 := fixed2
|}.

Definition env_with_key : env :=
  {| PRIVATE_KEY := Some "0x0123456789abcdef"; RPC_URL := None |}.

Definition env_without_key : env :=
  {| PRIVATE_KEY := None; RPC_URL := Some "https://forno.celo.org" |}.

(** The error of the README: code -32019, "block is out of range". *)
Definition forno_error : thrown :=
  ThrownError (VStr "RPC Request failed. Details: block is out of range")
              (Data (VStr "block is out of range")).

Definition insufficient_funds : thrown :=
  ThrownError (VStr "Insufficient funds for gas * price + value") (Data VUndefined).

Definition tx_hash : string := "0x8a16fededdfc0bb73f31ee2934c72af6f08f58b8".

(** The phrase in another letter case, in the message only. *)
Definition mixed_case_error : thrown :=
  ThrownError (VStr "RPC Request failed. Details: Block Is Out Of Range") (Data VUndefined).

(** The code in the message only. *)
Definition code_in_message : thrown :=
  ThrownError (VStr "RPC Request failed with code -32019") (Data VUndefined).

(** Another error code; the characters "-32019" are part of a number. *)
Definition code_inside_number : thrown :=
  ThrownError (VStr "execution reverted")
              (Data (VObj [("code", VNum "-32000"); ("gasDelta", VNum "-320190")])).

Definition url : string := "https://forno.celo.org".

Definition acct : account :=
  {| address := "0x6AD01Ac6841b67f27DC1A039FefBF5804003d6a4" |}.

(** The state at the start of the loop. *)
Definition start (numSends : nat) (script : list pass) : state (list pass) :=
  {| world := script; trace := []; results := new_results numSends |}.

(** A success, the Forno error, another error, a success. *)
Definition four_passes : list pass :=
  [Receipt tx_hash "success"; WaitThrows tx_hash forno_error;
   SendThrows insufficient_funds; Receipt tx_hash "success"].

(** A success, the Forno error, a reverted transaction, a success. *)
Definition four_with_reverted : list pass :=
  [Receipt tx_hash "success"; WaitThrows tx_hash forno_error;
   Receipt tx_hash "reverted"; Receipt tx_hash "success"].

(** One reverted transaction among a hundred. *)
Definition one_reverted : list pass :=
  Receipt tx_hash "reverted" :: repeat (Receipt tx_hash "success") 99.

End Scripted.

(** ** The events of a run

    What the client did in a pass, and the events the pass leaves for it. *)
Inductive pass_result : Type :=
| Received (hash : string) (rcpt : receipt)     (* both calls returned *)
| WaitThrew (hash : string) (error : thrown)    (* the wait for the receipt threw *)
| SendThrew (error : thrown).                   (* sendTransaction threw *)

(** The [catch] clause gets through an error when both texts can be
    built; the condition of its [if] is then decided. *)
Definition catchable (error : thrown) : bool :=
  match errorMessage error, errorDetails error with
  | inl _, inl _ => true
  | _, _ => false
  end.

(** The value of the condition of the [catch] clause for an error. *)
Definition error_matches (error : thrown) : bool :=
  match errorMessage error, errorDetails error with
  | inl m, inl d => isBlockOutOfRange m d
  | _, _ => false
  end.

Definition pass_outcome (pr : pass_result) : outcome :=
  match pr with
  | Received _ rcpt =>
      if (status rcpt =? "success")%string then Success else StatusNotSuccess
  | WaitThrew _ error | SendThrew error =>
      if error_matches error then BlockOutOfRange else Other
  end.

(** The two lines of the [catch] clause. *)
Definition error_events (i numSends : nat) (error : thrown) : list event :=
  [Log (if error_matches error then FailedBlockOutOfRangeLine i numSends
        else FailedOtherLine i numSends (message_text error));
   LogError (ErrorDetailsLine i numSends error)].

Definition pass_events (rpcUrl : string) (acct : account) (amount : Z)
                       (i numSends : nat) (pr : pass_result) : list event :=
  (Log (SendingLine i numSends) ::
   match pr with
   | Received hash rcpt =>
       [Call (SendTransaction rpcUrl (address acct) (address acct) amount (inl hash));
        Log (WaitingLine i numSends hash);
        Call (WaitForTransactionReceipt rpcUrl hash (inl rcpt));
        Log (if (status rcpt =? "success")%string then SuccessLine i numSends
             else FailedStatusLine i numSends)]
   | WaitThrew hash error =>
       [Call (SendTransaction rpcUrl (address acct) (address acct) amount (inl hash));
        Log (WaitingLine i numSends hash);
        Call (WaitForTransactionReceipt rpcUrl hash (inr error))]
       ++ error_events i numSends error
   | SendThrew error =>
       Call (SendTransaction rpcUrl (address acct) (address acct) amount (inr error))
       :: error_events i numSends error
   end)
  ++ (if i <? numSends then [Sleep 500] else []).

(** The events of consecutive passes, the first with index [i]. *)
Fixpoint loop_events (rpcUrl : string) (acct : account) (amount : Z)
                     (numSends i : nat) (prs : list pass_result) : list event :=
  match prs with
  | [] => []
  | pr :: rest =>
      pass_events rpcUrl acct amount i numSends pr
      ++ loop_events rpcUrl acct amount numSends (S i) rest
  end.

(** The error a pass met, if it met one. *)
Definition pass_error (pr : pass_result) : list thrown :=
  match pr with
  | Received _ _ => []
  | WaitThrew _ error | SendThrew error => [error]
  end.

(** The text of an "other" line is the lowered message of an error the
    condition did not hold for. *)
Definition pass_other_message (pr : pass_result) : list string :=
  match pr with
  | Received _ _ => []
  | WaitThrew _ error | SendThrew error =>
      if error_matches error then [] else [message_text error]
  end.

(** The pauses of a trace, in milliseconds. *)
Definition delays (evs : list event) : list nat :=
  flat_map (fun e => match e with Sleep ms => [ms] | _ => [] end) evs.

(** The hashes [sendTransaction] returned and the hashes whose receipt was
    waited for. *)
Definition submitted (evs : list event) : list string :=
  flat_map (fun e => match e with
                     | Call (SendTransaction _ _ _ _ (inl hash)) => [hash]
                     | _ => []
                     end) evs.

Definition awaited (evs : list event) : list string :=
  flat_map (fun e => match e with
                     | Call (WaitForTransactionReceipt _ hash _) => [hash]
                     | _ => []
                     end) evs.

(** The errors printed by [console.error] in the [catch] clause. *)
Definition error_dumps (evs : list event) : list thrown :=
  flat_map (fun e => match e with
                     | LogError (ErrorDetailsLine _ _ error) => [error]
                     | _ => []
                     end) evs.

(** The texts of the "Failed: ${errorMessage}" lines. *)
Definition other_messages (evs : list event) : list string :=
  flat_map (fun e => match e with
                     | Log (FailedOtherLine _ _ m) => [m]
                     | _ => []
                     end) evs.

(** A client call goes to [rpcUrl]; a transfer goes from the account to
    itself and carries [amount]. *)
Definition well_addressed (rpcUrl : string) (acct : account) (amount : Z)
                          (e : event) : Prop :=
  match e with
  | Call (GetBalance u a _) => u = rpcUrl /\ a = address acct
  | Call (SendTransaction u from to v _) =>
      u = rpcUrl /\ from = address acct /\ to = address acct /\ v = amount
  | Call (WaitForTransactionReceipt u _ _) => u = rpcUrl
  | _ => True
  end.

(** One value is found inside another: the value itself, an item of an
    array found inside it, or the value of a property found inside it. *)
Inductive inside (v : value) : value -> Prop :=
| inside_here : inside v v
| inside_item (items : list value) (x : value) :
    In x items -> inside v x -> inside v (VArr items)
| inside_prop (props : list (string * value)) (k : string) (x : value) :
    In (k, x) props -> inside v x -> inside v (VObj props).

(** The characters of the two patterns: small letters, space, digits, minus. *)
Definition pattern_char (c : ascii) : bool :=
  let n := nat_of_ascii c in
  in_range 97 122 n || (n =? 32) || in_range 48 57 n || (n =? 45).

(** The characters of "-32019". *)
Definition code_char (c : ascii) : bool :=
  let n := nat_of_ascii c in
  in_range 48 57 n || (n =? 45).

Fixpoint all_chars (f : ascii -> bool) (s : string) : bool :=
  match s with
  | EmptyString => true
  | String c t => f c && all_chars f t
  end.

(** Every error of a pass gets through the [catch] clause. *)
Definition pass_catchable (pr : pass_result) : bool :=
  forallb catchable (pass_error pr).

(** The events of the [try] block of a pass: what is left when the [catch]
    clause itself throws. *)
Definition attempt_events (rpcUrl : string) (acct : account) (amount : Z)
                          (i numSends : nat) (pr : pass_result) : list event :=
  Log (SendingLine i numSends) ::
  match pr with
  | Received hash rcpt =>
      [Call (SendTransaction rpcUrl (address acct) (address acct) amount (inl hash));
       Log (WaitingLine i numSends hash);
       Call (WaitForTransactionReceipt rpcUrl hash (inl rcpt));
       Log (if (status rcpt =? "success")%string then SuccessLine i numSends
            else FailedStatusLine i numSends)]
  | WaitThrew hash error =>
      [Call (SendTransaction rpcUrl (address acct) (address acct) amount (inl hash));
       Log (WaitingLine i numSends hash);
       Call (WaitForTransactionReceipt rpcUrl hash (inr error))]
  | SendThrew error =>
      [Call (SendTransaction rpcUrl (address acct) (address acct) amount (inr error))]
  end.

(** ** The fetch hooks of the other version of the script

    There the HTTP transport is given [onFetchRequest] and [onFetchResponse];
    each prints on its own.  The body of a request or response is absent,
    unreadable as JSON, or a JSON value. *)
Module FetchHooks.

Inductive hook_line : Type :=
| HookRequestLine (rpcMethod paramsStr : string)   (* `  -> ${rpcMethod}${paramsStr}` *)
| HookStatusLine (status : nat) (statusText : string)
                                   (* `    <- ERROR status=${status} ${statusText}` *)
| HookRpcErrorLine (code message : string)   (* `    <- ERROR ${code}: ${message}` *)
| HookResultLine (summary : string)                (* `    <- ${summary}` *)
| HookUnparsedLine.                                (* `    <- OK (couldn't parse)` *)

Inductive body : Type :=
| NoBody                      (* [request.body] is null *)
| Unreadable                  (* [text()] or [JSON.parse] throws *)
| Json (v : value).           (* [JSON.parse] returned [v] *)

Section Hooks.

(** Whether a text converts to a number above zero (StringToNumber), left
    to the runtime. *)
Variable positive_text : string -> bool.

(** [x > 0] for a number printed as [text]. *)
Definition positive_number (text : string) : bool :=
  negb (prefix "-" text || (text =? "0")%string || (text =? "NaN")%string).

(** [x > 0] for a value [x]: an object is converted through [valueOf] and
    [toString], which throws when [toString] is an own property. *)
Definition gt_zero (x : value) : bool + thrown :=
  match x with
  | VUndefined | VNull => inl false
  | VBool b => inl b
  | VNum text => inl (positive_number text)
  | VStr s => inl (positive_text s)
  | VArr _ => LoggingTransport.and_then (to_string x) (fun s => inl (positive_text s))
  | VObj props => if has_prop "toString" props then inr cannot_convert else inl false
  end.

(** [rpcParams.length > 0] *)
Definition has_params (rpcParams : value) : bool + thrown :=
  match rpcParams with
  | VArr items => inl (0 <? List.length items)
  | VStr s => inl (0 <? String.length s)
  | VObj props => gt_zero (get_prop "length" props)
  | _ => inl false
  end.

(** [rpcMethod] and [rpcParams] after the [if (request.body)] block: reading
    a property of [null] throws, which the [catch] swallows before either
    variable is assigned. *)
Definition request_fields (b : body) : value * value :=
  match b with
  | Json VNull | Json VUndefined | NoBody | Unreadable => (VStr "unknown", VArr [])
  | Json bodyJson =>
      (or_else (field "method" bodyJson) (VStr "unknown"),
       or_else (field "params" bodyJson) (VArr []))
  end.

(** [onFetchRequest]: the line printed, or the error thrown. *)
Definition onFetchRequest (b : body) : hook_line + thrown :=
  let (rpcMethod, rpcParams) := request_fields b in
  LoggingTransport.and_then (has_params rpcParams) (fun some =>
  if some then
    match stringify rpcParams with
    | Some s =>
        LoggingTransport.and_then (to_string rpcMethod) (fun m =>
        inl (HookRequestLine m
               (" " ++ slice0 80 s ++ (if 80 <? String.length s then "..." else ""))))
    | None => inr (not_a_function "JSON.stringify(...).slice")
    end
  else
    LoggingTransport.and_then (to_string rpcMethod) (fun m =>
    inl (HookRequestLine m ""))).

(** The [try] block of [onFetchResponse]: the lines printed, or the error
    thrown. *)
Definition response_try (b : body) : list hook_line + thrown :=
  match b with
  | NoBody | Unreadable => inr (type_error "JSON.parse")
  | Json VNull | Json VUndefined => inr (type_error "responseJson.error")
  | Json responseJson =>
      if truthy (field "error" responseJson) then
        LoggingTransport.and_then
          (to_string (field "code" (field "error" responseJson))) (fun code =>
        LoggingTransport.and_then
          (to_string (field "message" (field "error" responseJson))) (fun message =>
        inl [HookRpcErrorLine code message]))
      else if negb (LoggingTransport.is_undefined (field "result" responseJson)) then
        match LoggingTransport.summarize (field "result" responseJson) with
        | inl summary => inl [HookResultLine summary]
        | inr error => inr error
        end
      else inl []
  end.

(** [onFetchResponse]: the lines printed. *)
Definition onFetchResponse (status : nat) (statusText : string) (b : body)
  : list hook_line :=
  if negb (status =? 200) then [HookStatusLine status statusText]
  else match response_try b with
       | inl lines => lines
       | inr _ => [HookUnparsedLine]
       end.

End Hooks.

(** What the fetch layer does, in the order it does it: it hands a request
    to [onFetchRequest] when the request leaves, and a response to
    [onFetchResponse] when the response arrives. *)
Inductive fetch_event : Type :=
| Leaves (id : nat) (b : body)
| Arrives (id : nat) (status : nat) (statusText : string) (b : body).

(** A console line with the request it was printed for. *)
Definition hook_lines (positive_text : string -> bool) (e : fetch_event)
  : list (nat * hook_line) :=
  match e with
  | Leaves id b =>
      match onFetchRequest positive_text b with
      | inl l => [(id, l)]
      | inr _ => []
      end
  | Arrives id status statusText b =>
      map (pair id) (onFetchResponse status statusText b)
  end.

Definition hooks_console (positive_text : string -> bool) (evs : list fetch_event)
  : list (nat * hook_line) :=
  flat_map (hook_lines positive_text) evs.

End FetchHooks.

(** The errors [sendTransaction] and [waitForTransactionReceipt] throw all
    get through the [catch] clause of the loop. *)
Definition throws_catchable {W : Type} (ext : Externals W) : Prop :=
  (forall u a to v w e w',
      sendTransaction ext u a to v w = (inr e, w') -> catchable e = true)
  /\ (forall u h w e w',
         waitForTransactionReceipt ext u h w = (inr e, w') -> catchable e = true).

(** The state the [catch] clause throws from: [failed] has been raised and
    nothing has been printed. *)
Definition thrown_from {W : Type} (st : state W) : state W :=
  {| world := world st; trace := trace st; results := incr_failed (results st) |}.

(** ** Outside worlds that fail before the loop *)
Module Faulty.

Definition invalid_key : thrown :=
  ThrownError (VStr "invalid private key, expected hex or 32 bytes") (Data VUndefined).

Definition network_down : thrown :=
  ThrownError (VStr "HTTP request failed.") (Data (VStr "fetch failed")).

(** The key must start with "0x". *)
Definition picky : Externals (list Scripted.pass) := {|
  privateKeyToAccount := fun key =>
    if prefix "0x" key then inl Scripted.acct else inr invalid_key;
  formatUnits := formatUnits Scripted.ext;
  parseEther := parseEther Scripted.ext;
  getBalance := getBalance Scripted.ext;
  sendTransaction := sendTransaction Scripted.ext;
  waitForTransactionReceipt := waitForTransactionReceipt Scripted.ext;
  toFixed2 := toFixed2 Scripted.ext
|}.

(** The balance cannot be read. *)
Definition offline : Externals (list Scripted.pass) := {|
  privateKeyToAccount := privateKeyToAccount Scripted.ext;
  formatUnits := formatUnits Scripted.ext;
  parseEther := parseEther Scripted.ext;
  getBalance := fun _ _ w => (inr network_down, w);
  sendTransaction := sendTransaction Scripted.ext;
  waitForTransactionReceipt := waitForTransactionReceipt Scripted.ext;
  toFixed2 := toFixed2 Scripted.ext
|}.

Definition env_bad_key : env :=
  {| PRIVATE_KEY := Some "not-a-key"; RPC_URL := None |}.

Definition env_empty_key : env :=
  {| PRIVATE_KEY := Some ""; RPC_URL := Some "" |}.

(** The JSON-RPC error of the README, two levels down in the details. *)
Definition nested_code : thrown :=
  ThrownError (VStr "execution failed")
    (Data (VObj [("cause", VArr [VStr "retry 3";
                                 VObj [("code", VNum "-32019"); ("data", VNull)]])])).

(** A request body as the HTTP transport writes it. *)
Definition balance_request : list (string * value) :=
  [("jsonrpc", VStr "2.0"); ("id", VNum "1"); ("method", VStr "eth_getBalance");
   ("params", VArr [VStr "0x6AD01Ac6841b67f27DC1A039FefBF5804003d6a4"; VStr "latest"])].

(** Errors whose message is a number: the phrase, or the code, is in the
    details. *)
Definition numeric_message : thrown :=
  ThrownError (VNum "42") (Data (VStr "block is out of range")).

Definition numeric_message_code : thrown :=
  ThrownError (VNum "42") (Data (VObj [("code", VNum "-32019")])).

(** An error whose details are a BigInt. *)
Definition bigint_details : thrown :=
  ThrownError (VStr "block is out of range") (BigInt "32019").

(** A number of 22 digits, which JavaScript prints in exponent form. *)
Definition large_gas : thrown :=
  ThrownError (VStr "out of gas") (Data (VObj [("gas", VNum "-3.2019e+21")])).

(** An error whose details cannot be interpolated into a template. *)
Definition unprintable : thrown :=
  ThrownError (VStr "request failed") (Data (VObj [("toString", VNum "1")])).

(** A response with neither [error] nor [result]. *)
Definition bare_response : value := VObj [("jsonrpc", VStr "2.0"); ("id", VNum "1")].

End Faulty.

(** ** An outside world whose errors all get through the [catch] clause *)
Module Tame.

Definition tame (e : thrown) : thrown :=
  if catchable e then e else Scripted.exhausted.

Definition tame_result {A W : Type} (r : (A + thrown) * W) : (A + thrown) * W :=
  match r with
  | (inr e, w) => (inr (tame e), w)
  | _ => r
  end.

Definition ext : Externals (list Scripted.pass) := {|
  privateKeyToAccount := privateKeyToAccount Scripted.ext;
  formatUnits := formatUnits Scripted.ext;
  parseEther := parseEther Scripted.ext;
  getBalance := getBalance Scripted.ext;
  sendTransaction := fun u a to v w =>
    tame_result (sendTransaction Scripted.ext u a to v w);
  waitForTransactionReceipt := fun u h w =>
    tame_result (waitForTransactionReceipt Scripted.ext u h w);
  toFixed2 := toFixed2 Scripted.ext
|}.

End Tame.

(** [p] occurs in [s] in some letter case: a stretch of [s] equals [p] once
    both are lowered. *)
Definition occurs_any_case (s p : string) : Prop :=
  exists q, includes s q = true /\ toLowerCase q = toLowerCase p.

(** * Properties *)

(** ** Strings *)

Lemma prefix_iff (p s : string) :
  prefix p s = true <-> exists rest, s = p ++ rest.
Proof.
  revert s; induction p as [|c p IH]; intros s.
  - destruct s; simpl; split; eauto.
  - destruct s as [|d s]; simpl.
    + split; [discriminate | intros [rest H]; discriminate].
    + destruct (ascii_dec c d) as [Heq|Hne].
      * subst d. rewrite IH. split; intros [rest H]; exists rest.
        -- now rewrite H.
        -- now injection H.
      * split; [discriminate | intros [rest H]; injection H; congruence].
Qed.

Lemma includes_cons (c : ascii) (s p : string) :
  includes (String c s) p = prefix p (String c s) || includes s p.
Proof. reflexivity. Qed.

Lemma includes_iff (s p : string) :
  includes s p = true <-> exists before after, s = before ++ p ++ after.
Proof.
  induction s as [|c s IH].
  - change (includes "" p) with (prefix p "" || false).
    rewrite orb_false_r, prefix_iff. split.
    + intros [rest H]. now exists "", rest.
    + intros [before [after H]]. destruct before; simpl in H.
      * now exists after.
      * discriminate.
  - rewrite includes_cons, orb_true_iff, IH, prefix_iff. split.
    + intros [[rest H] | [before [after H]]].
      * now exists "", rest.
      * exists (String c before), after. simpl. now rewrite H.
    + intros [before [after H]]. destruct before as [|d before]; simpl in H.
      * left. now exists after.
      * right. injection H as _ H. now exists before, after.
Qed.

Lemma toLowerCase_app (a b : string) :
  toLowerCase (a ++ b) = toLowerCase a ++ toLowerCase b.
Proof. induction a as [|c a IH]; simpl; [reflexivity | now rewrite IH]. Qed.

(** Lowering both sides keeps an occurrence. *)
Lemma includes_toLowerCase (s q : string) :
  includes s q = true -> includes (toLowerCase s) (toLowerCase q) = true.
Proof.
  rewrite !includes_iff. intros [before [after ->]].
  exists (toLowerCase before), (toLowerCase after).
  now rewrite !toLowerCase_app.
Qed.

Lemma occurs_any_case_lowered (s p : string) :
  occurs_any_case s p -> includes (toLowerCase s) (toLowerCase p) = true.
Proof. intros [q [Hq <-]]. now apply includes_toLowerCase. Qed.

(** The patterns of the script are in lower case already. *)
Lemma phrase_lowered : toLowerCase "block is out of range" = "block is out of range".
Proof. reflexivity. Qed.

Lemma code_lowered : toLowerCase "-32019" = "-32019".
Proof. reflexivity. Qed.

Lemma includes_occurs_any_case (s p : string) :
  includes s p = true -> occurs_any_case s p.
Proof. intros H. now exists p. Qed.

(** ** Values *)

Example stringify_rpc_error :
  stringify (VObj [("code", VNum "-32019"); ("message", VStr "block is out of range")])
  = Some ("{" ++ json_quote "code" ++ ":-32019," ++ json_quote "message" ++ ":"
              ++ json_quote "block is out of range" ++ "}").
Proof. reflexivity. Qed.

Lemma stringify_truthy (v : value) : truthy v = true -> stringify v <> None.
Proof. destruct v as [| |[]| | | |]; simpl; congruence. Qed.

(** A value [||] replaces by [{}] prints to a text that holds neither
    pattern, in any letter case. *)
Lemma falsy_text (v : value) (s p : string) :
  truthy v = false -> stringify v = Some s ->
  p = "block is out of range" \/ p = "-32019" ->
  includes (toLowerCase s) p = false.
Proof.
  intros Hf Hs Hp.
  destruct v as [| |b|n|t| |]; simpl in Hf; try discriminate.
  - injection Hs as <-. destruct Hp as [-> | ->]; reflexivity.
  - subst b. injection Hs as <-. destruct Hp as [-> | ->]; reflexivity.
  - apply negb_false_iff, orb_true_iff in Hf.
    destruct Hf as [Hf | Hf]; apply String.eqb_eq in Hf; subst n;
      injection Hs as <-; destruct Hp as [-> | ->]; reflexivity.
  - apply negb_false_iff, String.eqb_eq in Hf. subst t. injection Hs as <-.
    destruct Hp as [-> | ->]; reflexivity.
Qed.

(** ** The [catch] clause *)

Section MainProperties.

Context {W : Type} (ext : Externals W).
Open Scope list_scope.

Lemma catchable_texts (error : thrown) :
  catchable error = true ->
  exists m d, errorMessage error = inl m /\ errorDetails error = inl d
              /\ message_text error = m
              /\ error_matches error = isBlockOutOfRange m d.
Proof.
  unfold catchable, error_matches, message_text.
  destruct (errorMessage error) as [m|]; [|discriminate].
  destruct (errorDetails error) as [d|]; [|discriminate].
  intros _. now exists m, d.
Qed.

(** An error both texts can be built for is tallied and printed. *)
Lemma on_error_runs (i numSends : nat) (error : thrown) (st : state W) :
  catchable error = true ->
  on_error i numSends error st
  = (inl tt, after_error i numSends error (error_matches error) st).
Proof.
  intros C. destruct (catchable_texts error C) as (m & d & Hm & Hd & Ht & Hc).
  unfold on_error, after_error, bind, liftE. rewrite Hm, Hd, Hc, Ht.
  unfold update_results, ret, console_log, console_error, emit. simpl.
  destruct (isBlockOutOfRange m d); simpl; rewrite <- app_assoc; reflexivity.
Qed.

(** Any other error makes the [catch] clause throw, after [failed++] and
    before anything is printed. *)
Lemma on_error_throws (i numSends : nat) (error : thrown) (st : state W) :
  catchable error = false ->
  exists e, on_error i numSends error st = (inr e, thrown_from st).
Proof.
  unfold catchable, on_error, bind, liftE, update_results, throw, thrown_from.
  destruct (errorMessage error) as [m|e1]; simpl.
  - destruct (errorDetails error) as [d|e2]; [discriminate|]. simpl. eauto.
  - eauto.
Qed.

(** The text the condition looks at when the details print to [s] and [s]
    holds one of the patterns. *)
Lemma errorDetails_of_text (error : thrown) (v : value) (s p : string) :
  details_of error = Data v ->
  stringify v = Some s ->
  p = "block is out of range" \/ p = "-32019" ->
  includes (toLowerCase s) p = true ->
  errorDetails error = inl (toLowerCase s).
Proof.
  intros Hv Hs Hp Hin. unfold errorDetails, details_json. rewrite Hv. cbn [detail_truthy].
  destruct (truthy v) eqn:T.
  - now rewrite Hs.
  - rewrite (falsy_text _ _ _ T Hs Hp) in Hin. discriminate.
Qed.

(** Details that are data always print. *)
Lemma errorDetails_of_data (error : thrown) (v : value) :
  details_of error = Data v ->
  exists d, errorDetails error = inl d.
Proof.
  intros Hv. unfold errorDetails, details_json. rewrite Hv. cbn [detail_truthy].
  destruct (truthy v) eqn:T.
  - destruct (stringify v) as [s|] eqn:S; [eauto|].
    exfalso. revert S. now apply stringify_truthy.
  - simpl. eauto.
Qed.

(** ** One pass of the loop *)

Lemma outcomes_app (a b : list event) : outcomes (a ++ b) = outcomes a ++ outcomes b.
Proof. apply flat_map_app. Qed.

Lemma started_app (a b : list event) : started (a ++ b) = started a ++ started b.
Proof. apply flat_map_app. Qed.

Lemma sends_app (a b : list event) : sends (a ++ b) = sends a + sends b.
Proof. unfold sends. now rewrite filter_app, length_app. Qed.

(** The [try] block, by what the client does in it. *)
Lemma attempt_events_of (rpcUrl : string) (acct : account) (i numSends : nat)
                        (st : state W) :
  exists pr r st',
    attempt ext rpcUrl acct i numSends st = (r, st')
    /\ trace st' = trace st
                   ++ attempt_events rpcUrl acct (parseEther ext "0.001") i numSends pr
    /\ match pr with
       | Received _ rcpt =>
           r = inl tt
           /\ results st' = tally (results st) (pass_outcome pr)
       | WaitThrew _ error | SendThrew error =>
           r = inr error /\ results st' = results st
       end.
Proof.
  unfold attempt, bind, call, console_log, emit, update_results, ret. simpl.
  destruct (sendTransaction ext rpcUrl acct (address acct) (parseEther ext "0.001") (world st))
    as [[hash|error] w1]; simpl.
  - destruct (waitForTransactionReceipt ext rpcUrl hash w1) as [[rcpt|error] w2]; simpl.
    + exists (Received hash rcpt). unfold pass_outcome.
      destruct (status rcpt =? "success")%string eqn:S; simpl;
        eexists _, _; (split; [reflexivity|]); unfold attempt_events; simpl;
        rewrite ?S; rewrite <- ?app_assoc; simpl; repeat split; reflexivity.
    + exists (WaitThrew hash error). eexists _, _. split; [reflexivity|]. simpl.
      rewrite <- ?app_assoc. simpl. repeat split; reflexivity.
  - exists (SendThrew error). eexists _, _. split; [reflexivity|]. simpl.
    rewrite <- ?app_assoc. simpl. repeat split; reflexivity.
Qed.

Lemma pass_events_split (rpcUrl : string) (acct : account) (amount : Z)
                        (i numSends : nat) (pr : pass_result) :
  pass_events rpcUrl acct amount i numSends pr
  = attempt_events rpcUrl acct amount i numSends pr
    ++ flat_map (error_events i numSends) (pass_error pr)
    ++ (if i <? numSends then [Sleep 500] else []).
Proof.
  destruct pr; unfold pass_events, attempt_events; cbn [pass_error flat_map];
    rewrite ?app_nil_r; cbn [app]; rewrite <- ?app_assoc; reflexivity.
Qed.

(** A pass either completes, leaving its events and one more outcome in the
    counters, or its [catch] clause throws. *)
Lemma iteration_events (rpcUrl : string) (acct : account) (i numSends : nat)
                       (st : state W) :
  exists pr st',
    (pass_catchable pr = true
     /\ iteration ext rpcUrl acct i numSends st = (inl tt, st')
     /\ trace st' = trace st
                    ++ pass_events rpcUrl acct (parseEther ext "0.001") i numSends pr
     /\ results st' = tally (results st) (pass_outcome pr))
    \/ (pass_catchable pr = false
        /\ (exists e, iteration ext rpcUrl acct i numSends st = (inr e, st'))
        /\ trace st' = trace st
                       ++ attempt_events rpcUrl acct (parseEther ext "0.001") i numSends pr
        /\ results st' = incr_failed (results st)).
Proof.
  destruct (attempt_events_of rpcUrl acct i numSends st) as (pr & r & st1 & Hrun & Htr & H).
  exists pr. unfold iteration, try_catch, bind. rewrite Hrun.
  rewrite pass_events_split.
  destruct pr as [hash rcpt | hash error | error]; destruct H as [-> Hres].
  - exists (if i <? numSends
            then {| world := world st1; trace := trace st1 ++ [Sleep 500];
                    results := results st1 |}
            else st1).
    left. split; [reflexivity|]. unfold emit, ret.
    destruct (i <? numSends); simpl; rewrite ?Htr, ?app_nil_r, <- ?app_assoc;
      repeat split; assumption.
  - cbn [pass_catchable pass_error forallb]. rewrite andb_true_r.
    destruct (catchable error) eqn:C.
    + rewrite on_error_runs by exact C.
      unfold emit, ret.
      destruct (i <? numSends); eexists; left; (split; [reflexivity|]);
        (split; [reflexivity|]); simpl;
        rewrite Htr, Hres, ?app_nil_r, <- ?app_assoc; simpl;
        unfold pass_outcome; destruct (error_matches error); split; reflexivity.
    + destruct (on_error_throws i numSends error st1 C) as [e He]. rewrite He.
      exists (thrown_from st1). right. split; [reflexivity|].
      split; [now exists e|]. simpl. now rewrite Hres.
  - cbn [pass_catchable pass_error forallb]. rewrite andb_true_r.
    destruct (catchable error) eqn:C.
    + rewrite on_error_runs by exact C.
      unfold emit, ret.
      destruct (i <? numSends); eexists; left; (split; [reflexivity|]);
        (split; [reflexivity|]); simpl;
        rewrite Htr, Hres, ?app_nil_r, <- ?app_assoc; simpl;
        unfold pass_outcome; destruct (error_matches error); split; reflexivity.
    + destruct (on_error_throws i numSends error st1 C) as [e He]. rewrite He.
      exists (thrown_from st1). right. split; [reflexivity|].
      split; [now exists e|]. simpl. now rewrite Hres.
Qed.

(** ** The loop *)

Lemma pass_facts (rpcUrl : string) (acct : account) (amount : Z)
                 (i numSends : nat) (pr : pass_result) :
  outcomes (pass_events rpcUrl acct amount i numSends pr) = [pass_outcome pr]
  /\ started (pass_events rpcUrl acct amount i numSends pr) = [i]
  /\ sends (pass_events rpcUrl acct amount i numSends pr) = 1.
Proof.
  destruct pr as [hash rcpt | hash error | error];
    unfold pass_events, pass_outcome, error_events;
    rewrite !outcomes_app, !started_app, !sends_app;
    destruct (i <? numSends); simpl;
    try (destruct (status rcpt =? "success")%string);
    try (destruct (error_matches error)); repeat split; reflexivity.
Qed.

Lemma aborted_pass_facts (rpcUrl : string) (acct : account) (amount : Z)
                         (i numSends : nat) (pr : pass_result) :
  pass_catchable pr = false ->
  outcomes (attempt_events rpcUrl acct amount i numSends pr) = []
  /\ started (attempt_events rpcUrl acct amount i numSends pr) = [i]
  /\ sends (attempt_events rpcUrl acct amount i numSends pr) = 1.
Proof.
  destruct pr as [hash rcpt | hash error | error]; [discriminate| |];
    intros _; repeat split; reflexivity.
Qed.

Lemma loop_facts (rpcUrl : string) (acct : account) (amount : Z) (numSends : nat)
                 (prs : list pass_result) :
  forall i : nat,
    outcomes (loop_events rpcUrl acct amount numSends i prs) = map pass_outcome prs
    /\ started (loop_events rpcUrl acct amount numSends i prs) = seq i (List.length prs)
    /\ sends (loop_events rpcUrl acct amount numSends i prs) = List.length prs.
Proof.
  induction prs as [|pr prs IH]; intros i; [repeat split; reflexivity|].
  cbn [loop_events]. rewrite outcomes_app, started_app, sends_app.
  destruct (pass_facts rpcUrl acct amount i numSends pr) as (-> & -> & ->).
  destruct (IH (S i)) as (-> & -> & ->). repeat split; reflexivity.
Qed.

(** The loop either makes all its passes, or stops in the pass whose
    [catch] clause throws. *)
Lemma for_loop_events (rpcUrl : string) (acct : account) (numSends fuel : nat) :
  forall (i : nat) (st : state W),
    i + fuel <= S numSends ->
    exists prs st',
      forallb pass_catchable prs = true
      /\ ((for_loop ext rpcUrl acct numSends fuel i st = (inl tt, st')
           /\ List.length prs = fuel
           /\ trace st' = trace st
                ++ loop_events rpcUrl acct (parseEther ext "0.001") numSends i prs
           /\ results st' = fold_left tally (map pass_outcome prs) (results st))
          \/ (exists e pr,
                for_loop ext rpcUrl acct numSends fuel i st = (inr e, st')
                /\ List.length prs < fuel
                /\ pass_catchable pr = false
                /\ trace st' = trace st
                     ++ loop_events rpcUrl acct (parseEther ext "0.001") numSends i prs
                     ++ attempt_events rpcUrl acct (parseEther ext "0.001")
                          (i + List.length prs) numSends pr
                /\ results st'
                   = incr_failed (fold_left tally (map pass_outcome prs) (results st)))).
Proof.
  induction fuel as [|fuel IH]; intros i st Hi.
  - exists [], st. split; [reflexivity|]. left. simpl. rewrite app_nil_r.
    repeat split; reflexivity.
  - simpl. assert (Hle : (i <=? numSends) = true) by (apply Nat.leb_le; lia).
    rewrite Hle. unfold bind.
    destruct (iteration_events rpcUrl acct i numSends st)
      as (pr & st1 & [(C & Hrun & Htr & Hres) | (C & [e Hrun] & Htr & Hres)]);
      rewrite Hrun.
    + destruct (IH (S i) st1) as (prs & st2 & Hall & H); [lia|].
      exists (pr :: prs), st2. split; [simpl; now rewrite C, Hall|].
      destruct H as [(Hrun2 & Hlen2 & Htr2 & Hres2)
                    | (e & pr2 & Hrun2 & Hlen2 & C2 & Htr2 & Hres2)].
      * left. split; [exact Hrun2|]. split; [simpl; now rewrite Hlen2|]. split.
        -- rewrite Htr2, Htr. cbn [loop_events]. now rewrite app_assoc.
        -- rewrite Hres2, Hres. reflexivity.
      * right. exists e, pr2. split; [exact Hrun2|]. split; [simpl; lia|].
        split; [exact C2|]. split.
        -- rewrite Htr2, Htr. cbn [loop_events List.length].
           replace (i + S (List.length prs)) with (S i + List.length prs) by lia.
           now rewrite <- !app_assoc.
        -- rewrite Hres2, Hres. reflexivity.
    + exists [], st1. split; [reflexivity|]. right. exists e, pr.
      split; [reflexivity|]. split; [simpl; lia|]. split; [exact C|].
      cbn [loop_events List.length app map fold_left]. rewrite Nat.add_0_r.
      split; assumption.
Qed.

(** With a client whose errors all get through the [catch] clause, every
    pass completes. *)
Lemma thrown_errors_catchable (rpcUrl : string) (acct : account) (i numSends : nat)
                              (st st1 : state W) (error : thrown) :
  throws_catchable ext ->
  attempt ext rpcUrl acct i numSends st = (inr error, st1) ->
  catchable error = true.
Proof.
  intros [Hsend Hwait].
  unfold attempt, bind, call, console_log, emit, update_results. simpl.
  destruct (sendTransaction ext rpcUrl acct (address acct) (parseEther ext "0.001") (world st))
    as [[hash|e] w1] eqn:S; simpl.
  - destruct (waitForTransactionReceipt ext rpcUrl hash w1) as [[rcpt|e] w2] eqn:Wt; simpl.
    + destruct (status rcpt =? "success")%string; simpl; discriminate.
    + intros H. injection H as <- _. eapply Hwait, Wt.
  - intros H. injection H as <- _. eapply Hsend, S.
Qed.

(** The loop ends by its own condition: fuel beyond the passes left is
    never used. *)
Lemma for_loop_fuel (rpcUrl : string) (acct : account) (numSends fuel extra : nat) :
  forall (i : nat) (st : state W),
    i + fuel = S numSends ->
    for_loop ext rpcUrl acct numSends (fuel + extra) i st
    = for_loop ext rpcUrl acct numSends fuel i st.
Proof.
  induction fuel as [|fuel IH]; intros i st Hi.
  - simpl. destruct extra as [|extra]; [reflexivity|]. simpl.
    assert (Hgt : (i <=? numSends) = false) by (apply Nat.leb_gt; lia).
    now rewrite Hgt.
  - simpl. destruct (i <=? numSends); [|reflexivity].
    unfold bind. destruct (iteration ext rpcUrl acct i numSends st) as [[[]|e] st1];
      [|reflexivity].
    apply IH. lia.
Qed.

(** The first [k] passes, then the rest. *)
Lemma for_loop_split (rpcUrl : string) (acct : account) (numSends k rest : nat) :
  forall (i : nat) (st st_k : state W),
    for_loop ext rpcUrl acct numSends k i st = (inl tt, st_k) ->
    i + k <= S numSends ->
    for_loop ext rpcUrl acct numSends (k + rest) i st
    = for_loop ext rpcUrl acct numSends rest (i + k) st_k.
Proof.
  induction k as [|k IH]; intros i st st_k Hrun Hi.
  - simpl in Hrun. injection Hrun as ->. now rewrite Nat.add_0_r.
  - simpl in *. assert (Hle : (i <=? numSends) = true) by (apply Nat.leb_le; lia).
    rewrite Hle in *. unfold bind in *.
    destruct (iteration ext rpcUrl acct i numSends st) as [[[]|e] st1];
      [|discriminate].
    rewrite (IH (S i) st1 st_k Hrun) by lia. f_equal. lia.
Qed.

(** ** Counters *)

Lemma tally_counts (os : list outcome) :
  forall r : Results,
    let r' := fold_left tally os r in
    total r' = total r
    /\ successful r' = successful r + count_occ outcome_eq_dec os Success
    /\ failed r' = failed r + count_occ outcome_eq_dec os StatusNotSuccess
                   + count_occ outcome_eq_dec os BlockOutOfRange
                   + count_occ outcome_eq_dec os Other
    /\ blockOutOfRangeErrors r' = blockOutOfRangeErrors r
                                  + count_occ outcome_eq_dec os BlockOutOfRange
    /\ otherErrors r' = otherErrors r + count_occ outcome_eq_dec os Other.
Proof.
  induction os as [|o os IH]; intros r; simpl.
  - repeat split; lia.
  - specialize (IH (tally r o)). simpl in IH.
    destruct IH as (Ht & Hs & Hf & Hb & Ho).
    rewrite Ht, Hs, Hf, Hb, Ho.
    destruct o; simpl; repeat split; lia.
Qed.

Lemma outcome_counts (os : list outcome) :
  List.length os
  = count_occ outcome_eq_dec os Success + count_occ outcome_eq_dec os StatusNotSuccess
    + count_occ outcome_eq_dec os BlockOutOfRange + count_occ outcome_eq_dec os Other.
Proof. induction os as [|o os IH]; simpl; [reflexivity|]. destruct o; simpl; lia. Qed.

(** One branch, whichever it is, carries the invariant to the next count. *)
Lemma tally_invariant (k : nat) (r : Results) (o : outcome) :
  counters_invariant k r -> counters_invariant (S k) (tally r o).
Proof. unfold counters_invariant. destruct o; simpl; lia. Qed.

Lemma fold_tally_invariant (os : list outcome) :
  forall (k : nat) (r : Results),
    counters_invariant k r ->
    counters_invariant (k + List.length os) (fold_left tally os r).
Proof.
  induction os as [|o os IH]; intros k r H; simpl.
  - now rewrite Nat.add_0_r.
  - replace (k + S (List.length os)) with (S k + List.length os) by lia.
    apply IH. now apply tally_invariant.
Qed.

(** ** The whole process *)

(** What [main] does once the key is there, the account is derived and the
    balance is read. *)
Lemma main_body_runs (numSends : nat) (rpcUrl privateKey : string) (w w1 : W)
                     (acct : account) (balance : Z) :
  privateKeyToAccount ext privateKey = inl acct ->
  getBalance ext rpcUrl (address acct) w = (inl balance, w1) ->
  main_body ext numSends rpcUrl privateKey (initial w)
  = bind (send_loop ext rpcUrl acct numSends) (fun _ => report ext)
      {| world := w1;
         trace := preamble ext numSends rpcUrl acct balance;
         results := new_results numSends |}.
Proof.
  intros Hacct Hbal.
  unfold main_body, bind, liftE, call, console_log, emit, update_results, ret, initial.
  rewrite Hacct. simpl. rewrite Hbal. reflexivity.
Qed.

Lemma report_runs (st : state W) :
  report ext st
  = (inl tt, {| world := world st;
                trace := trace st ++ report_lines ext (results st);
                results := results st |}).
Proof.
  unfold report, bind, get_results, console_log, emit. simpl.
  rewrite <- !app_assoc. reflexivity.
Qed.

(** The process after the loop: the report and exit 0 when the loop made
    all its passes, the uncaught error and exit 1 when it did not. *)
Lemma process_cases (numSends : nat) (e : env) (w w1 : W)
                    (privateKey : string) (acct : account) (balance : Z) :
  PRIVATE_KEY e = Some privateKey ->
  privateKey <> "" ->
  privateKeyToAccount ext privateKey = inl acct ->
  getBalance ext (rpcUrl_of e) (address acct) w = (inl balance, w1) ->
  exists prs,
    forallb pass_catchable prs = true
    /\ ((exists st,
           run_process ext numSends e w = (0, st)
           /\ List.length prs = numSends
           /\ trace st = preamble ext numSends (rpcUrl_of e) acct balance
                ++ loop_events (rpcUrl_of e) acct (parseEther ext "0.001") numSends 1 prs
                ++ report_lines ext (results st)
           /\ results st = fold_left tally (map pass_outcome prs) (new_results numSends))
        \/ (exists st error pr,
              run_process ext numSends e w = (1, st)
              /\ List.length prs < numSends
              /\ pass_catchable pr = false
              /\ trace st = preamble ext numSends (rpcUrl_of e) acct balance
                   ++ loop_events (rpcUrl_of e) acct (parseEther ext "0.001") numSends 1 prs
                   ++ attempt_events (rpcUrl_of e) acct (parseEther ext "0.001")
                        (1 + List.length prs) numSends pr
                   ++ [LogError (UncaughtLine error)]
              /\ results st
                 = incr_failed (fold_left tally (map pass_outcome prs)
                                          (new_results numSends)))).
Proof.
  intros Hkey Hne Hacct Hbal.
  unfold run_process. rewrite Hkey.
  destruct privateKey as [|c rest]; [congruence|].
  rewrite (main_body_runs numSends _ _ w w1 acct balance Hacct Hbal).
  unfold bind, send_loop.
  match goal with
  | |- context [for_loop ext ?u ?a ?n ?f ?i ?s] =>
      destruct (for_loop_events u a n f i s) as (prs & st' & Hall & H); [lia|]
  end.
  exists prs. split; [exact Hall|].
  destruct H as [(Hrun & Hlen & Htr & Hres) | (err & pr & Hrun & Hlen & C & Htr & Hres)];
    rewrite Hrun.
  - left. rewrite report_runs. eexists. split; [reflexivity|].
    split; [exact Hlen|]. simpl. rewrite Htr. simpl. rewrite <- ?app_assoc.
    split; [reflexivity | exact Hres].
  - right. eexists _, err, pr. split; [reflexivity|]. split; [exact Hlen|].
    split; [exact C|]. simpl. rewrite Htr. simpl. rewrite <- ?app_assoc.
    split; [reflexivity | exact Hres].
Qed.

(** The trace of a process that exits with status 0. *)
Lemma exit_0_events (numSends : nat) (e : env) (w : W) (st : state W) :
  run_process ext numSends e w = (0, st) ->
  exists privateKey acct balance w1 prs,
    PRIVATE_KEY e = Some privateKey
    /\ privateKey <> ""%string
    /\ privateKeyToAccount ext privateKey = inl acct
    /\ getBalance ext (rpcUrl_of e) (address acct) w = (inl balance, w1)
    /\ List.length prs = numSends
    /\ trace st = preamble ext numSends (rpcUrl_of e) acct balance
                  ++ loop_events (rpcUrl_of e) acct (parseEther ext "0.001") numSends 1 prs
                  ++ report_lines ext (results st)
    /\ results st = fold_left tally (map pass_outcome prs) (new_results numSends)
    /\ forallb pass_catchable prs = true.
Proof.
  intros Hrun.
  destruct (PRIVATE_KEY e) as [privateKey|] eqn:Hkey;
    [|unfold run_process in Hrun; rewrite Hkey in Hrun; discriminate].
  destruct (string_dec privateKey "") as [->|Hne];
    [unfold run_process in Hrun; rewrite Hkey in Hrun; discriminate|].
  destruct (privateKeyToAccount ext privateKey) as [acct|err] eqn:Hacct.
  - destruct (getBalance ext (rpcUrl_of e) (address acct) w) as [[balance|err] w1] eqn:Hbal.
    + destruct (process_cases numSends e w w1 privateKey acct balance Hkey Hne Hacct Hbal)
        as (prs & Hall & [(st' & Hrun' & H) | (st' & err & pr & Hrun' & _)]);
        rewrite Hrun' in Hrun; [|discriminate].
      injection Hrun as <-. destruct H as (Hlen & Htr & Hres).
      exists privateKey, acct, balance, w1, prs. repeat split; assumption.
    + exfalso. unfold run_process in Hrun. rewrite Hkey in Hrun.
      destruct privateKey; [congruence|].
      unfold main_body, bind, liftE, call, console_log, emit, ret, initial in Hrun.
      rewrite Hacct in Hrun. simpl in Hrun. rewrite Hbal in Hrun. discriminate.
  - exfalso. unfold run_process in Hrun. rewrite Hkey in Hrun.
    destruct privateKey; [congruence|].
    unfold main_body, bind, liftE, throw in Hrun.
    rewrite Hacct in Hrun. discriminate.
Qed.

(** Neither the lines before the loop nor the report hold a result line, a
    "Sending" line or a submission. *)
Lemma around_the_loop (numSends : nat) (rpcUrl : string) (acct : account) (balance : Z)
                      (r : Results) (evs : list event) :
  let whole := preamble ext numSends rpcUrl acct balance ++ evs ++ report_lines ext r in
  outcomes whole = outcomes evs /\ started whole = started evs /\ sends whole = sends evs.
Proof.
  cbv zeta. rewrite !outcomes_app, !started_app, !sends_app.
  change (outcomes (preamble ext numSends rpcUrl acct balance)) with (@nil outcome).
  change (outcomes (report_lines ext r)) with (@nil outcome).
  change (started (preamble ext numSends rpcUrl acct balance)) with (@nil nat).
  change (started (report_lines ext r)) with (@nil nat).
  change (sends (preamble ext numSends rpcUrl acct balance)) with 0.
  change (sends (report_lines ext r)) with 0.
  rewrite !app_nil_r. simpl. repeat split; lia.
Qed.

(** The summary of a run that ends normally: [successful + failed] is
    [total], and [failed] is made of the two kinds of errors and of the
    receipts whose status is not "success". *)
Lemma summary_of_run (numSends : nat) (e : env) (w : W) (st : state W) :
  run_process ext numSends e w = (0, st) ->
  total (results st) = numSends
  /\ successful (results st) + failed (results st) = total (results st)
  /\ blockOutOfRangeErrors (results st) + otherErrors (results st)
     + count StatusNotSuccess (trace st) = failed (results st).
Proof.
  intros Hrun.
  destruct (exit_0_events numSends e w st Hrun)
    as (privateKey & acct & balance & w1 & prs & _ & _ & _ & _ & Hlen & Htr & Hres & _).
  destruct (around_the_loop numSends (rpcUrl_of e) acct balance (results st)
              (loop_events (rpcUrl_of e) acct (parseEther ext "0.001") numSends 1 prs))
    as (Ho & _).
  rewrite <- Htr in Ho. unfold count. rewrite Ho.
  destruct (loop_facts (rpcUrl_of e) acct (parseEther ext "0.001") numSends prs 1)
    as (-> & _).
  destruct (tally_counts (map pass_outcome prs) (new_results numSends))
    as (Ht & Hsu & Hf & Hb & Hoth).
  rewrite <- Hres in Ht, Hsu, Hf, Hb, Hoth. simpl in Ht, Hsu, Hf, Hb, Hoth.
  pose proof (outcome_counts (map pass_outcome prs)) as Hcnt.
  rewrite length_map, Hlen in Hcnt.
  repeat split; lia.
Qed.

(** ** Classification of a caught error *)

(** The [try] block changes [results] only in its last statement, so a
    throw leaves the counters as they were. *)
Lemma attempt_throws (rpcUrl : string) (acct : account) (i numSends : nat)
                     (st st1 : state W) (error : thrown) :
  attempt ext rpcUrl acct i numSends st = (inr error, st1) ->
  results st1 = results st.
Proof.
  unfold attempt, bind, call, console_log, emit, update_results. simpl.
  destruct (sendTransaction ext rpcUrl acct (address acct) (parseEther ext "0.001") (world st))
    as [[hash|e] w1]; simpl.
  - destruct (waitForTransactionReceipt ext rpcUrl hash w1) as [[rcpt|e] w2]; simpl.
    + destruct (status rcpt =? "success")%string; simpl; discriminate.
    + intros H. injection H as _ <-. reflexivity.
  - intros H. injection H as _ <-. reflexivity.
Qed.


(** What the [catch] clause does with an error thrown in the [try] block. *)
Lemma error_caught (rpcUrl : string) (acct : account) (i numSends : nat)
                   (st st1 : state W) (error : thrown) :
  attempt ext rpcUrl acct i numSends st = (inr error, st1) ->
  catchable error = true ->
  try_catch (attempt ext rpcUrl acct i numSends) (on_error i numSends) st
  = (inl tt, after_error i numSends error (error_matches error) st1).
Proof.
  intros Hthrow C. unfold try_catch. rewrite Hthrow. now apply on_error_runs.
Qed.

(** The patterns the condition of the [catch] clause answers to. *)
Lemma condition_holds (error : thrown) :
  catchable error = true ->
  (exists m, message_of error = VStr m /\ occurs_any_case m "block is out of range")
  \/ (exists v s, details_of error = Data v /\ stringify v = Some s
                  /\ (occurs_any_case s "block is out of range"
                      \/ includes s "-32019" = true)) ->
  error_matches error = true.
Proof.
  intros C H. destruct (catchable_texts error C) as (m0 & d & Hm & Hd & _ & ->).
  destruct H as [[m [Hmsg Hocc]] | (v & s & Hv & Hs & Hocc)].
  - unfold errorMessage in Hm. rewrite Hmsg in Hm. injection Hm as <-.
    apply occurs_any_case_lowered in Hocc. rewrite phrase_lowered in Hocc.
    unfold isBlockOutOfRange. now rewrite Hocc.
  - assert (Hin : includes (toLowerCase s) "block is out of range" = true
                  \/ includes (toLowerCase s) "-32019" = true).
    { destruct Hocc as [Hocc | Hcode].
      - left. apply occurs_any_case_lowered in Hocc. now rewrite phrase_lowered in Hocc.
      - right. apply includes_toLowerCase in Hcode. now rewrite code_lowered in Hcode. }
    unfold isBlockOutOfRange.
    destruct Hin as [Hin | Hin].
    + rewrite (errorDetails_of_text error v s "block is out of range") in Hd by auto.
      injection Hd as <-. rewrite Hin. now rewrite orb_true_r.
    + rewrite (errorDetails_of_text error v s "-32019") in Hd by auto.
      injection Hd as <-. rewrite Hin. now rewrite !orb_true_r.
Qed.

(** The condition of the [catch] clause, read on the message and on the JSON
    text of the details. *)
Lemma condition_value (error : thrown) (m : string) (v : value) (s : string) :
  errorMessage error = inl m ->
  details_of error = Data v ->
  stringify v = Some s ->
  catchable error = true
  /\ error_matches error
     = includes m "block is out of range"
       || includes (toLowerCase s) "block is out of range"
       || includes (toLowerCase s) "-32019".
Proof.
  intros Hm Hv Hs. unfold catchable, error_matches. rewrite Hm.
  unfold errorDetails, details_json. rewrite Hv. cbn [detail_truthy].
  destruct (truthy v) eqn:T.
  - rewrite Hs. split; reflexivity.
  - cbn [stringify json_object map]. split; [reflexivity|].
    rewrite (falsy_text v s "block is out of range" T Hs) by auto.
    rewrite (falsy_text v s "-32019" T Hs) by auto.
    unfold isBlockOutOfRange. rewrite !orb_false_r. reflexivity.
Qed.

(** * The claims of the specification *)



(** C3: what the code does with a receipt whose status is not "success":
    the pass is never a success and never block-out-of-range, the fixed line
    "Failed: tx status not success" is printed and [failed] goes up by one,
    but [otherErrors] is left as it was. *)
Theorem non_success_receipt_counts_failed_only
    (rpcUrl : string) (acct : account) (i numSends : nat)
    (st : state W) (hash : string) (rcpt : receipt) (w1 w2 : W) :
  sendTransaction ext rpcUrl acct (address acct) (parseEther ext "0.001") (world st)
  = (inl hash, w1) ->
  waitForTransactionReceipt ext rpcUrl hash w1 = (inl rcpt, w2) ->
  status rcpt <> "success" ->
  exists st',
    try_catch (attempt ext rpcUrl acct i numSends) (on_error i numSends) st = (inl tt, st')
    /\ failed (results st') = S (failed (results st))
    /\ successful (results st') = successful (results st)
    /\ blockOutOfRangeErrors (results st') = blockOutOfRangeErrors (results st)
    /\ otherErrors (results st') = otherErrors (results st)
    /\ trace st' = trace st ++
         [Log (SendingLine i numSends);
          Call (SendTransaction rpcUrl (address acct) (address acct)
                                (parseEther ext "0.001") (inl hash));
          Log (WaitingLine i numSends hash);
          Call (WaitForTransactionReceipt rpcUrl hash (inl rcpt));
          Log (FailedStatusLine i numSends)].
Proof.
  intros Hsend Hwait Hstatus.
  unfold try_catch, attempt, bind, call, console_log, emit, update_results. simpl.
  rewrite Hsend. simpl. rewrite Hwait. simpl.
  apply String.eqb_neq in Hstatus. rewrite Hstatus. simpl.
  eexists. split; [reflexivity|]. simpl. rewrite <- !app_assoc. simpl.
  repeat split; reflexivity.
Qed.

(** C5: without [PRIVATE_KEY] the process prints its two error lines and
    exits with status 1; nothing else happens: no client call is made and
    the outside world is untouched. *)
Theorem missing_private_key_exits_1 (e : env) (w : W) :
  PRIVATE_KEY e = None ->
  exists st,
    main ext e w = (1, st)
    /\ trace st = [LogError MissingPrivateKey; LogError UsageHint]
    /\ filter is_call (trace st) = []
    /\ world st = w.
Proof.
  intros Hkey. unfold main, run_process. rewrite Hkey.
  eexists. split; [reflexivity|]. simpl. repeat split; reflexivity.
Qed.

(** With a client whose errors all get through the [catch] clause, a pass
    always completes, and so does the loop. *)
Lemma iteration_completes (rpcUrl : string) (acct : account) (i numSends : nat)
                          (st : state W) :
  throws_catchable ext ->
  exists st', iteration ext rpcUrl acct i numSends st = (inl tt, st').
Proof.
  intros H. unfold iteration, bind.
  destruct (attempt ext rpcUrl acct i numSends st) as [[[]|error] st1] eqn:A.
  - unfold try_catch. rewrite A. destruct (i <? numSends); eexists; reflexivity.
  - rewrite (error_caught _ _ _ _ _ _ _ A
               (thrown_errors_catchable _ _ _ _ _ _ _ H A)).
    destruct (i <? numSends); eexists; reflexivity.
Qed.

Lemma for_loop_completes (rpcUrl : string) (acct : account) (numSends fuel : nat) :
  throws_catchable ext ->
  forall (i : nat) (st : state W),
    exists st', for_loop ext rpcUrl acct numSends fuel i st = (inl tt, st').
Proof.
  intros H. induction fuel as [|fuel IH]; intros i st; simpl; [eexists; reflexivity|].
  destruct (i <=? numSends); [|eexists; reflexivity].
  unfold bind. destruct (iteration_completes rpcUrl acct i numSends st H) as [st1 ->].
  apply IH.
Qed.

(** The state after the loop has made [fuel] passes. *)
Lemma for_loop_completed (rpcUrl : string) (acct : account) (numSends fuel i : nat)
                         (st st' : state W) :
  i + fuel <= S numSends ->
  for_loop ext rpcUrl acct numSends fuel i st = (inl tt, st') ->
  exists prs,
    List.length prs = fuel
    /\ forallb pass_catchable prs = true
    /\ trace st' = trace st
         ++ loop_events rpcUrl acct (parseEther ext "0.001") numSends i prs
    /\ results st' = fold_left tally (map pass_outcome prs) (results st).
Proof.
  intros Hi Hrun.
  destruct (for_loop_events rpcUrl acct numSends fuel i st Hi)
    as (prs & st2 & Hall & [(Hrun2 & H) | (e & pr & Hrun2 & _)]);
    rewrite Hrun2 in Hrun; [|discriminate].
  injection Hrun as <-. exists prs. destruct H as (? & ? & ?). repeat split; assumption.
Qed.

(** C9: after each completed pass the counters satisfy
    [blockOutOfRangeErrors + otherErrors <= failed] and
    [successful + failed] is the number of passes completed; each pass,
    whichever branch it takes, carries this from one count to the next,
    also the pass the loop is left from by an error of its [catch] clause,
    which has raised [failed] before.  The loop makes its first [k] passes
    whenever the errors of the client get through the [catch] clause. *)
Theorem counters_invariant_preserved
    (rpcUrl : string) (acct : account) (numSends k : nat) (st : state W) :
  k <= numSends ->
  results st = new_results numSends ->
  exists r st_k j,
    for_loop ext rpcUrl acct numSends k 1 st = (r, st_k)
    /\ j <= k
    /\ counters_invariant j (results st_k)
    /\ (r = inl tt ->
        j = k
        /\ send_loop ext rpcUrl acct numSends st
           = for_loop ext rpcUrl acct numSends (numSends - k) (S k) st_k)
    /\ (throws_catchable ext -> r = inl tt)
    /\ (forall (i j0 : nat) (st0 : state W),
          counters_invariant j0 (results st0) ->
          counters_invariant (S j0)
            (results (snd (iteration ext rpcUrl acct i numSends st0)))).
Proof.
  intros Hk Hinit.
  assert (Hstart : counters_invariant 0 (new_results numSends))
    by (unfold counters_invariant; simpl; lia).
  assert (Hpass : forall (i j0 : nat) (st0 : state W),
             counters_invariant j0 (results st0) ->
             counters_invariant (S j0)
               (results (snd (iteration ext rpcUrl acct i numSends st0)))).
  { intros i j0 st0 Hinv.
    destruct (iteration_events rpcUrl acct i numSends st0)
      as (pr & st1 & [(_ & Hrun & _ & Hres) | (_ & [e Hrun] & _ & Hres)]);
      rewrite Hrun; simpl; rewrite Hres.
    - now apply tally_invariant.
    - revert Hinv. unfold counters_invariant. simpl. lia. }
  destruct (for_loop_events rpcUrl acct numSends k 1 st)
    as (prs & st_k & _ & [(Hrun & Hlen & _ & Hres)
                         | (e & pr & Hrun & Hlen & _ & _ & Hres)]); [lia| |].
  - exists (inl tt), st_k, k. split; [exact Hrun|]. split; [lia|].
    split; [|split; [|split]]; try assumption.
    + rewrite Hres, Hinit. rewrite <- Hlen at 1. rewrite <- (length_map pass_outcome).
      now apply (fold_tally_invariant (map pass_outcome prs) 0).
    + intros _. split; [reflexivity|]. unfold send_loop.
      assert (Hsplit := for_loop_split rpcUrl acct numSends k (numSends - k) 1 st st_k Hrun).
      change (1 + k) with (S k) in Hsplit. rewrite <- Hsplit by lia.
      f_equal. lia.
    + intros _. reflexivity.
  - exists (inr e), st_k, (S (List.length prs)). split; [exact Hrun|]. split; [lia|].
    split; [|split; [|split]]; try assumption.
    + rewrite Hres, Hinit.
      pose proof (fold_tally_invariant (map pass_outcome prs) 0 _ Hstart) as Hinv.
      rewrite length_map in Hinv. revert Hinv. unfold counters_invariant. simpl. lia.
    + discriminate.
    + intros H. destruct (for_loop_completes rpcUrl acct numSends k H 1 st) as [st2 H2].
      rewrite H2 in Hrun. discriminate.
Qed.



End MainProperties.

(** ** Text inside text *)

Lemma append_assoc (a b c : string) : ((a ++ b) ++ c = a ++ b ++ c)%string.
Proof. induction a as [|x a IH]; simpl; [reflexivity | now rewrite IH]. Qed.

Lemma append_nil_r (a : string) : (a ++ "" = a)%string.
Proof. induction a as [|x a IH]; simpl; [reflexivity | now rewrite IH]. Qed.

Lemma append_length (a b : string) :
  String.length (a ++ b) = String.length a + String.length b.
Proof. induction a as [|x a IH]; simpl; [reflexivity | now rewrite IH]. Qed.

(** An occurrence in a part is an occurrence in the whole. *)
Lemma includes_inside (s t q before after : string) :
  s = (before ++ t ++ after)%string ->
  includes t q = true ->
  includes s q = true.
Proof.
  intros -> H. apply includes_iff in H as (b & a & ->). apply includes_iff.
  exists (before ++ b)%string, (a ++ after)%string.
  now rewrite !append_assoc.
Qed.

(** A lowered text splits where the text does. *)
Lemma toLowerCase_split (a : string) :
  forall s b : string,
    toLowerCase s = (a ++ b)%string ->
    exists a' b', s = (a' ++ b')%string /\ toLowerCase a' = a /\ toLowerCase b' = b.
Proof.
  induction a as [|c a IH]; intros s b H.
  - now exists ""%string, s.
  - destruct s as [|c0 s0]; simpl in H; [discriminate|].
    injection H as Hc H. destruct (IH s0 b H) as (a' & b' & -> & Ha & Hb).
    exists (String c0 a'), b'. simpl. now rewrite Hc, Ha.
Qed.

(** Searching the lowered text for a lowered pattern is searching the text
    for the pattern in any letter case. *)
Lemma lowered_includes_iff (s p : string) :
  includes (toLowerCase s) (toLowerCase p) = true <-> occurs_any_case s p.
Proof.
  split; [|apply occurs_any_case_lowered].
  intros H. apply includes_iff in H as (before & after & H).
  apply toLowerCase_split in H as (a' & rest & -> & _ & H).
  apply toLowerCase_split in H as (q & b' & -> & Hq & _).
  exists q. split; [|exact Hq]. apply includes_iff. now exists a', b'.
Qed.

Lemma code_char_fixed (c : ascii) :
  code_char (lower_char c) = true -> lower_char c = c.
Proof.
  destruct c as [[] [] [] [] [] [] [] []]; vm_compute; intros H;
    first [reflexivity | discriminate H].
Qed.

Lemma pattern_char_plain (c : ascii) :
  pattern_char (lower_char c) = true -> json_escape c = String c "".
Proof.
  destruct c as [[] [] [] [] [] [] [] []]; vm_compute; intros H;
    first [reflexivity | discriminate H].
Qed.

(** Only the text itself lowers to a text of digits and minus signs. *)
Lemma lowered_code_fixed (q : string) :
  forall p : string,
    toLowerCase q = p -> all_chars code_char p = true -> q = p.
Proof.
  induction q as [|c q IH]; intros p H Hp; cbn [toLowerCase] in H; subst p;
    [reflexivity|].
  cbn [all_chars] in Hp. apply andb_true_iff in Hp as [Hc Hp].
  rewrite (code_char_fixed c Hc). f_equal. now apply IH.
Qed.

(** A stretch that lowers to letters, spaces, digits and minus signs is
    written into a JSON string literal as it is. *)
Lemma escape_plain (q : string) :
  forall p : string,
    toLowerCase q = p -> all_chars pattern_char p = true -> json_escape_all q = q.
Proof.
  induction q as [|c q IH]; intros p H Hp; cbn [toLowerCase] in H; subst p;
    [reflexivity|].
  cbn [all_chars] in Hp. apply andb_true_iff in Hp as [Hc Hp].
  cbn [json_escape_all]. rewrite (pattern_char_plain c Hc). simpl. f_equal.
  now apply (IH _ eq_refl).
Qed.

Lemma json_escape_all_app (a b : string) :
  json_escape_all (a ++ b) = (json_escape_all a ++ json_escape_all b)%string.
Proof.
  induction a as [|c a IH]; simpl; [reflexivity|]. now rewrite IH, append_assoc.
Qed.

(** What a string holds in plain pattern characters, its JSON literal holds
    too. *)
Lemma json_quote_keeps (d q p : string) :
  includes d q = true ->
  toLowerCase q = p -> all_chars pattern_char p = true ->
  includes (json_quote d) q = true.
Proof.
  intros H Hq Hp. apply includes_iff in H as (before & after & ->).
  apply includes_iff.
  exists (String quote_char (json_escape_all before)),
         (json_escape_all after ++ String quote_char "")%string.
  unfold json_quote. rewrite !json_escape_all_app, (escape_plain q p Hq Hp).
  simpl. now rewrite !append_assoc.
Qed.

Lemma concat_holds (sep x : string) (l : list string) :
  In x l -> exists before after, concat sep l = (before ++ x ++ after)%string.
Proof.
  induction l as [|y l IH]; [intros []|].
  intros [-> | Hin].
  - destruct l as [|z l]; simpl.
    + exists ""%string, ""%string. now rewrite append_nil_r.
    + now exists ""%string, (sep ++ concat sep (z :: l))%string.
  - destruct (IH Hin) as (before & after & E).
    destruct l as [|z l]; [destruct Hin|].
    exists (y ++ sep ++ before)%string, after.
    change (concat sep (y :: z :: l)) with (y ++ sep ++ concat sep (z :: l))%string.
    now rewrite E, !append_assoc.
Qed.

(** The JSON text of a value holds the JSON text of every value found
    inside it. *)
Lemma stringify_holds (v d : value) (t : string) :
  inside v d ->
  stringify v = Some t ->
  exists s before after,
    stringify d = Some s /\ s = (before ++ t ++ after)%string.
Proof.
  intros Hin Ht. induction Hin as [|items x Hx Hin IH|props k x Hx Hin IH].
  - exists t, ""%string, ""%string. split; [exact Ht|]. simpl. now rewrite append_nil_r.
  - destruct IH as (sx & b & a & Hsx & ->).
    set (f := fun y => match stringify y with Some s => s | None => "null"%string end).
    assert (Hmem : In (b ++ t ++ a)%string (map f items)).
    { apply in_map_iff. exists x. split; [|exact Hx]. unfold f. now rewrite Hsx. }
    destruct (concat_holds "," _ _ Hmem) as (b' & a' & E).
    exists (json_array stringify items), ("[" ++ b' ++ b)%string, (a ++ a' ++ "]")%string.
    split; [reflexivity|]. unfold json_array. fold f. rewrite E.
    now rewrite !append_assoc.
  - destruct IH as (sx & b & a & Hsx & ->).
    set (g := fun p : string * value =>
                match stringify (snd p) with
                | Some s => [(json_quote (fst p) ++ ":" ++ s)%string]
                | None => []
                end).
    assert (Hmem : In (json_quote k ++ ":" ++ b ++ t ++ a)%string (flat_map g props)).
    { apply in_flat_map. exists (k, x). split; [exact Hx|].
      unfold g. simpl. rewrite Hsx. now left. }
    destruct (concat_holds "," _ _ Hmem) as (b' & a' & E).
    exists (json_object stringify props),
           ("{" ++ b' ++ json_quote k ++ ":" ++ b)%string, (a ++ a' ++ "}")%string.
    split; [reflexivity|]. unfold json_object. fold g. rewrite E.
    now rewrite !append_assoc.
Qed.

(** ** The condition of the [catch] clause, exactly *)

Section Classification.

Context {W : Type}.
Open Scope list_scope.

Lemma lowered_code_iff (s : string) :
  includes (toLowerCase s) "-32019" = true <-> includes s "-32019" = true.
Proof.
  split.
  - intros H. rewrite <- code_lowered in H. apply lowered_includes_iff in H.
    destruct H as (q & Hq & Hlow). rewrite code_lowered in Hlow.
    now rewrite <- (lowered_code_fixed q "-32019" Hlow eq_refl).
  - intros H. apply includes_toLowerCase in H. now rewrite code_lowered in H.
Qed.

(** X11: for an error whose message is absent or a string and whose details
    are data, the [catch] clause counts the error as block-out-of-range
    exactly when its lowered message holds "block is out of range", or the
    JSON text of its details (of [{}] when the details are missing or
    falsy) holds that phrase in some letter case or the characters "-32019";
    in every other case it counts it under [otherErrors]. *)
Theorem classification_is_exact
    (i numSends : nat) (error : thrown) (m : string) (v : value) (st : state W) :
  errorMessage error = inl m ->
  details_of error = Data v ->
  exists s matched,
    stringify (or_else v (VObj [])) = Some s
    /\ on_error i numSends error st = (inl tt, after_error i numSends error matched st)
    /\ (matched = true
        <-> includes m "block is out of range" = true
            \/ occurs_any_case s "block is out of range"
            \/ includes s "-32019" = true).
Proof.
  intros Hm Hv.
  destruct (stringify (or_else v (VObj []))) as [s|] eqn:Hs.
  2:{ exfalso. revert Hs. apply stringify_truthy. unfold or_else.
      destruct (truthy v) eqn:T; [exact T | reflexivity]. }
  assert (Hd : errorDetails error = inl (toLowerCase s)).
  { unfold errorDetails, details_json. rewrite Hv. cbn [detail_truthy].
    unfold or_else in Hs. destruct (truthy v); now rewrite Hs. }
  assert (C : catchable error = true) by (unfold catchable; now rewrite Hm, Hd).
  exists s, (error_matches error).
  split; [reflexivity|]. split; [now apply on_error_runs|].
  unfold error_matches. rewrite Hm, Hd.
  unfold isBlockOutOfRange. rewrite !orb_true_iff.
  rewrite <- phrase_lowered at 2. rewrite lowered_includes_iff, lowered_code_iff.
  tauto.
Qed.

(** X12: when the message of a caught error is absent or a string and its
    details are a string, as the chain client sets them, and that string
    holds "block is out of range" in some letter case or the characters
    "-32019", the error is counted as block-out-of-range: writing the string
    as a JSON literal hides neither. *)
Theorem string_details_are_searched
    (i numSends : nat) (error : thrown) (m d : string) (st : state W) :
  errorMessage error = inl m ->
  details_of error = Data (VStr d) ->
  occurs_any_case d "block is out of range" \/ includes d "-32019" = true ->
  on_error i numSends error st = (inl tt, after_error i numSends error true st).
Proof.
  intros Hm Hdet Hpat.
  destruct (errorDetails_of_data error (VStr d) Hdet) as [x Hx].
  assert (C : catchable error = true) by (unfold catchable; now rewrite Hm, Hx).
  rewrite (on_error_runs i numSends error st C). f_equal. f_equal.
  apply condition_holds; [exact C|]. right. exists (VStr d), (json_quote d).
  split; [exact Hdet|]. split; [reflexivity|].
  destruct Hpat as [(q & Hq & Hlow) | Hcode].
  - left. exists q. split; [|exact Hlow].
    rewrite phrase_lowered in Hlow.
    now apply (json_quote_keeps d q "block is out of range").
  - right. now apply (json_quote_keeps d "-32019" "-32019").
Qed.

(** X13: when the message of a caught error is absent or a string and its
    details are data, the number -32019, or a string with the phrase or
    the code in it, anywhere within the details - in an array, in a
    property, at any depth - makes the error count as block-out-of-range. *)
Theorem pattern_nested_in_details_is_found
    (i numSends : nat) (error : thrown) (m : string) (dv v : value) (t : string)
    (st : state W) :
  errorMessage error = inl m ->
  details_of error = Data dv ->
  inside v dv ->
  stringify v = Some t ->
  occurs_any_case t "block is out of range" \/ includes t "-32019" = true ->
  on_error i numSends error st = (inl tt, after_error i numSends error true st).
Proof.
  intros Hm Hdet Hin Ht Hpat.
  destruct (stringify_holds v dv t Hin Ht) as (s & b & a & Hs & E).
  destruct (errorDetails_of_data error dv Hdet) as [x Hx].
  assert (C : catchable error = true) by (unfold catchable; now rewrite Hm, Hx).
  rewrite (on_error_runs i numSends error st C). f_equal. f_equal.
  apply condition_holds; [exact C|]. right. exists dv, s.
  split; [exact Hdet|]. split; [exact Hs|].
  destruct Hpat as [(q & Hq & Hlow) | Hcode].
  - left. exists q. split; [|exact Hlow]. now apply (includes_inside s t q b a).
  - right. now apply (includes_inside s t "-32019" b a).
Qed.

Lemma errorMessage_returns_iff (error : thrown) :
  (exists m, errorMessage error = inl m)
  <-> (message_of error = VUndefined \/ message_of error = VNull
       \/ exists m, message_of error = VStr m).
Proof.
  unfold errorMessage.
  destruct (message_of error) as [| |b|n|m|items|props]; split; intros H;
    try (destruct H as [m' H]; discriminate H);
    try (destruct H as [H|[H|[m' H]]]; discriminate H);
    eauto 6.
Qed.

Lemma errorDetails_returns_iff (error : thrown) :
  (exists d, errorDetails error = inl d)
  <-> ((exists v, details_of error = Data v) \/ details_of error = BigInt "0").
Proof.
  split.
  - intros [d H]. unfold errorDetails, details_json in H.
    destruct (details_of error) as [v|text| |src]; cbn [detail_truthy] in H.
    + left. now exists v.
    + destruct (text =? "0")%string eqn:E; cbn in H; [|discriminate H].
      apply String.eqb_eq in E. subst text. now right.
    + discriminate H.
    + discriminate H.
  - intros [[v H] | H].
    + now apply (errorDetails_of_data error v).
    + unfold errorDetails, details_json. rewrite H. cbn. eauto.
Qed.

(** X22: the [catch] clause gets through an error, without throwing
    itself, exactly when the message of the error is absent or a string
    and its details are data or the BigInt zero, which [||] replaces by
    [{}]: any other message has no [toLowerCase], and [JSON.stringify]
    throws on the other details or returns [undefined] for them. *)
Theorem catch_clause_gets_through (error : thrown) :
  catchable error = true
  <-> (message_of error = VUndefined \/ message_of error = VNull
       \/ exists m, message_of error = VStr m)
      /\ ((exists v, details_of error = Data v) \/ details_of error = BigInt "0").
Proof.
  rewrite <- errorMessage_returns_iff, <- errorDetails_returns_iff.
  unfold catchable.
  destruct (errorMessage error) as [m|e1]; destruct (errorDetails error) as [d|e2];
    split; intros H; eauto; try discriminate H;
    destruct H as [[m' H1] [d' H2]]; discriminate.
Qed.

End Classification.

(** ** What the passes leave in the trace *)

Section PassEvents.

Variables (rpcUrl : string) (acct : account) (amount : Z) (numSends : nat).
Open Scope list_scope.

Lemma delays_app (a b : list event) : delays (a ++ b) = delays a ++ delays b.
Proof. apply flat_map_app. Qed.

Lemma submitted_app (a b : list event) : submitted (a ++ b) = submitted a ++ submitted b.
Proof. apply flat_map_app. Qed.

Lemma awaited_app (a b : list event) : awaited (a ++ b) = awaited a ++ awaited b.
Proof. apply flat_map_app. Qed.

Lemma error_dumps_app (a b : list event) :
  error_dumps (a ++ b) = error_dumps a ++ error_dumps b.
Proof. apply flat_map_app. Qed.

Lemma other_messages_app (a b : list event) :
  other_messages (a ++ b) = other_messages a ++ other_messages b.
Proof. apply flat_map_app. Qed.

Lemma percents_app (a b : list event) : percents (a ++ b) = percents a ++ percents b.
Proof. apply flat_map_app. Qed.

Lemma pass_delays (i : nat) (pr : pass_result) :
  delays (pass_events rpcUrl acct amount i numSends pr)
  = if i <? numSends then [500] else [].
Proof.
  unfold pass_events, error_events.
  destruct pr as [h r|h e|e]; rewrite delays_app; simpl;
    try rewrite delays_app; simpl;
    try destruct (status r =? "success")%string; try destruct (error_matches e);
    destruct (i <? numSends); reflexivity.
Qed.

(** One pause of 500 ms after every pass but the last. *)
Lemma loop_delays (prs : list pass_result) :
  forall i : nat,
    i + List.length prs = S numSends ->
    delays (loop_events rpcUrl acct amount numSends i prs)
    = repeat 500 (List.length prs - 1).
Proof.
  induction prs as [|pr rest IH]; intros i Hi; [reflexivity|].
  cbn [loop_events]. rewrite delays_app, pass_delays.
  destruct rest as [|pr' rest'].
  - simpl in Hi. assert (Hlt : (i <? numSends) = false) by (apply Nat.ltb_ge; lia).
    rewrite Hlt. reflexivity.
  - simpl in Hi. assert (Hlt : (i <? numSends) = true) by (apply Nat.ltb_lt; lia).
    rewrite Hlt, (IH (S i)) by (simpl; lia). simpl. now rewrite Nat.sub_0_r.
Qed.

Lemma pass_awaited (i : nat) (pr : pass_result) :
  awaited (pass_events rpcUrl acct amount i numSends pr)
  = submitted (pass_events rpcUrl acct amount i numSends pr).
Proof.
  unfold pass_events, error_events.
  destruct pr as [h r|h e|e]; rewrite awaited_app, submitted_app; simpl;
    try destruct (status r =? "success")%string; try destruct (error_matches e);
    destruct (i <? numSends); reflexivity.
Qed.

Lemma loop_awaited (prs : list pass_result) :
  forall i : nat,
    awaited (loop_events rpcUrl acct amount numSends i prs)
    = submitted (loop_events rpcUrl acct amount numSends i prs).
Proof.
  induction prs as [|pr rest IH]; intros i; [reflexivity|].
  cbn [loop_events]. now rewrite awaited_app, submitted_app, pass_awaited, IH.
Qed.

Lemma pass_error_dumps (i : nat) (pr : pass_result) :
  error_dumps (pass_events rpcUrl acct amount i numSends pr) = pass_error pr.
Proof.
  unfold pass_events, error_events.
  destruct pr as [h r|h e|e]; rewrite error_dumps_app; simpl;
    try destruct (status r =? "success")%string; try destruct (error_matches e);
    destruct (i <? numSends); reflexivity.
Qed.

Lemma loop_error_dumps (prs : list pass_result) :
  forall i : nat,
    error_dumps (loop_events rpcUrl acct amount numSends i prs) = flat_map pass_error prs.
Proof.
  induction prs as [|pr rest IH]; intros i; [reflexivity|].
  cbn [loop_events flat_map]. now rewrite error_dumps_app, pass_error_dumps, IH.
Qed.

Lemma errors_counted (prs : list pass_result) :
  List.length (flat_map pass_error prs)
  = count_occ outcome_eq_dec (map pass_outcome prs) BlockOutOfRange
    + count_occ outcome_eq_dec (map pass_outcome prs) Other.
Proof.
  induction prs as [|pr rest IH]; [reflexivity|].
  cbn [flat_map map]. rewrite length_app, IH.
  destruct pr as [h r|h e|e]; simpl;
    try destruct (status r =? "success")%string; try destruct (error_matches e);
    simpl; lia.
Qed.

Lemma pass_other_messages (i : nat) (pr : pass_result) :
  other_messages (pass_events rpcUrl acct amount i numSends pr) = pass_other_message pr.
Proof.
  unfold pass_events, error_events.
  destruct pr as [h r|h e|e]; rewrite other_messages_app; simpl;
    try destruct (status r =? "success")%string; try destruct (error_matches e);
    destruct (i <? numSends); reflexivity.
Qed.

Lemma loop_other_messages (prs : list pass_result) :
  forall i : nat,
    other_messages (loop_events rpcUrl acct amount numSends i prs)
    = flat_map pass_other_message prs.
Proof.
  induction prs as [|pr rest IH]; intros i; [reflexivity|].
  cbn [loop_events flat_map]. now rewrite other_messages_app, pass_other_messages, IH.
Qed.

Lemma unmatched_message (error : thrown) :
  catchable error = true ->
  error_matches error = false ->
  includes (message_text error) "block is out of range" = false.
Proof.
  intros C. destruct (catchable_texts error C) as (m & d & _ & _ & -> & ->).
  unfold isBlockOutOfRange.
  intros H. apply orb_false_iff in H as [H _]. now apply orb_false_iff in H as [H _].
Qed.

Lemma other_messages_clean (prs : list pass_result) :
  forallb pass_catchable prs = true ->
  Forall (fun m => includes m "block is out of range" = false)
         (flat_map pass_other_message prs)
  /\ List.length (flat_map pass_other_message prs)
     = count_occ outcome_eq_dec (map pass_outcome prs) Other.
Proof.
  induction prs as [|pr rest IH]; [split; [constructor | reflexivity]|].
  cbn [forallb]. intros H. apply andb_true_iff in H as [C Hrest].
  destruct (IH Hrest) as [IHa IHb].
  cbn [flat_map map]. rewrite length_app, IHb. split.
  - apply Forall_app. split; [|exact IHa].
    destruct pr as [h r|h e|e]; simpl; try constructor;
      cbn [pass_catchable pass_error forallb] in C; rewrite andb_true_r in C;
      destruct (error_matches e) eqn:E; constructor;
      try (now apply unmatched_message); constructor.
  - destruct pr as [h r|h e|e]; simpl;
      try destruct (status r =? "success")%string; try destruct (error_matches e);
      simpl; lia.
Qed.

Lemma pass_well_addressed (i : nat) (pr : pass_result) :
  Forall (well_addressed rpcUrl acct amount)
         (pass_events rpcUrl acct amount i numSends pr).
Proof.
  unfold pass_events, error_events. apply Forall_app. split.
  - destruct pr as [h r|h e|e]; repeat constructor; simpl; auto.
  - destruct (i <? numSends); repeat constructor.
Qed.

Lemma loop_well_addressed (prs : list pass_result) :
  forall i : nat,
    Forall (well_addressed rpcUrl acct amount)
           (loop_events rpcUrl acct amount numSends i prs).
Proof.
  induction prs as [|pr rest IH]; intros i; [constructor|].
  cbn [loop_events]. apply Forall_app. split; [apply pass_well_addressed | apply IH].
Qed.

Lemma loop_percents (prs : list pass_result) :
  forall i : nat, percents (loop_events rpcUrl acct amount numSends i prs) = [].
Proof.
  induction prs as [|pr rest IH]; intros i; [reflexivity|].
  cbn [loop_events]. rewrite percents_app, IH, app_nil_r.
  unfold pass_events, error_events. rewrite percents_app.
  destruct pr as [h r|h e|e]; simpl;
    try destruct (status r =? "success")%string; try destruct (error_matches e);
    destruct (i <? numSends); reflexivity.
Qed.

End PassEvents.

(** ** Before, in and after the loop *)

Section ProcessProperties.

Context {W : Type} (ext : Externals W).
Open Scope list_scope.

(** Once the key is there, the account is derived and the balance is read,
    a client whose errors all get through the [catch] clause lets the
    process run the loop to its end and exit with status 0. *)
Lemma process_runs (numSends : nat) (e : env) (w w1 : W)
                   (privateKey : string) (acct : account) (balance : Z) :
  throws_catchable ext ->
  PRIVATE_KEY e = Some privateKey ->
  privateKey <> ""%string ->
  privateKeyToAccount ext privateKey = inl acct ->
  getBalance ext (rpcUrl_of e) (address acct) w = (inl balance, w1) ->
  exists st, run_process ext numSends e w = (0, st).
Proof.
  intros H Hkey Hne Hacct Hbal. unfold run_process. rewrite Hkey.
  destruct privateKey as [|c rest]; [congruence|].
  rewrite (main_body_runs ext numSends _ _ w w1 acct balance Hacct Hbal).
  unfold bind, send_loop.
  match goal with
  | |- context [for_loop ext ?u ?a ?n ?f ?i ?s] =>
      destruct (for_loop_completes ext u a n f H i s) as [st' ->]
  end.
  rewrite report_runs. eexists. reflexivity.
Qed.

(** X1: with a client whose errors all get through the [catch] clause
    (their message is absent or a string, their details print as JSON),
    the process exits with status 0 exactly when [PRIVATE_KEY] is set and
    not empty, the account is derived from it and the balance is read; what
    happens in the passes has then no part in the exit status. *)
Theorem exit_status_is_decided_before_the_loop (numSends : nat) (e : env) (w : W) :
  throws_catchable ext ->
  (fst (run_process ext numSends e w) = 0
   <-> exists privateKey acct balance w1,
         PRIVATE_KEY e = Some privateKey
         /\ privateKey <> ""%string
         /\ privateKeyToAccount ext privateKey = inl acct
         /\ getBalance ext (rpcUrl_of e) (address acct) w = (inl balance, w1))
  /\ (fst (run_process ext numSends e w) = 0 \/ fst (run_process ext numSends e w) = 1).
Proof.
  intros Hext. split; [split|].
  - intros H. destruct (run_process ext numSends e w) as [code st] eqn:Hrun.
    simpl in H. subst code.
    destruct (exit_0_events ext numSends e w st Hrun)
      as (privateKey & acct & balance & w1 & prs & Hk & Hne & Ha & Hb & _).
    now exists privateKey, acct, balance, w1.
  - intros (privateKey & acct & balance & w1 & Hk & Hne & Ha & Hb).
    destruct (process_runs numSends e w w1 privateKey acct balance Hext Hk Hne Ha Hb)
      as (st & Hrun).
    now rewrite Hrun.
  - unfold run_process.
    destruct (PRIVATE_KEY e) as [[|c rest]|]; simpl; auto.
    destruct (main_body ext numSends (rpcUrl_of e) (String c rest) (initial w))
      as [[[]|err] st]; simpl; auto.
Qed.

(** An empty [PRIVATE_KEY] is handled as a missing one. *)
Lemma empty_private_key (numSends : nat) (e : env) (w : W) :
  PRIVATE_KEY e = Some ""%string ->
  run_process ext numSends e w
  = (1, {| world := w;
           trace := [LogError MissingPrivateKey; LogError UsageHint];
           results := new_results 0 |}).
Proof. intros H. unfold run_process. now rewrite H. Qed.

(** X3: when the account cannot be derived from the key, the error goes to
    the top-level handler: it is printed, the exit status is 1, and nothing
    was printed or asked of the network before. *)
Theorem invalid_key_exits_1 (numSends : nat) (e : env) (w : W)
                            (privateKey : string) (error : thrown) :
  PRIVATE_KEY e = Some privateKey ->
  privateKey <> ""%string ->
  privateKeyToAccount ext privateKey = inr error ->
  run_process ext numSends e w
  = (1, {| world := w;
           trace := [LogError (UncaughtLine error)];
           results := new_results 0 |}).
Proof.
  intros Hk Hne Ha. unfold run_process. rewrite Hk.
  destruct privateKey as [|c rest]; [congruence|].
  unfold main_body, bind, liftE, throw, initial. rewrite Ha. reflexivity.
Qed.

(** X4: when the balance cannot be read, the process stops there: the error
    is printed, the exit status is 1, no transaction was submitted and no
    report is printed. *)
Theorem balance_failure_exits_1 (numSends : nat) (e : env) (w w1 : W)
                                (privateKey : string) (acct : account) (error : thrown) :
  PRIVATE_KEY e = Some privateKey ->
  privateKey <> ""%string ->
  privateKeyToAccount ext privateKey = inl acct ->
  getBalance ext (rpcUrl_of e) (address acct) w = (inr error, w1) ->
  exists st,
    run_process ext numSends e w = (1, st)
    /\ world st = w1
    /\ trace st = [Log (AccountLine (address acct)); Log (RpcUrlLine (rpcUrl_of e));
                   Log BlankLine;
                   Call (GetBalance (rpcUrl_of e) (address acct) (inr error));
                   LogError (UncaughtLine error)]
    /\ sends (trace st) = 0
    /\ percents (trace st) = [].
Proof.
  intros Hk Hne Ha Hb. unfold run_process. rewrite Hk.
  destruct privateKey as [|c rest]; [congruence|].
  unfold main_body, bind, liftE, call, console_log, emit, ret, initial.
  rewrite Ha. simpl. rewrite Hb. simpl.
  eexists. split; [reflexivity|]. simpl. repeat split; reflexivity.
Qed.


(** X6: a run that ends normally pauses 500 ms after every pass but the
    last: [numSends - 1] pauses in all, none when there is no pass. *)
Theorem pauses_between_passes (numSends : nat) (e : env) (w : W) (st : state W) :
  run_process ext numSends e w = (0, st) ->
  delays (trace st) = repeat 500 (numSends - 1).
Proof.
  intros Hrun.
  destruct (exit_0_events ext numSends e w st Hrun)
    as (privateKey & acct & balance & w1 & prs & _ & _ & _ & _ & Hlen & Htr & _ & _).
  rewrite Htr, !delays_app, loop_delays by (rewrite Hlen; reflexivity).
  rewrite Hlen. unfold preamble, report_lines. simpl. now rewrite app_nil_r.
Qed.

(** X7: a receipt is waited for exactly for the hashes [sendTransaction]
    returned, once each and in the same order; a pass whose submission
    threw waits for nothing. *)
Theorem receipts_awaited_for_submitted_hashes
    (numSends : nat) (e : env) (w : W) (st : state W) :
  run_process ext numSends e w = (0, st) ->
  awaited (trace st) = submitted (trace st).
Proof.
  intros Hrun.
  destruct (exit_0_events ext numSends e w st Hrun)
    as (privateKey & acct & balance & w1 & prs & _ & _ & _ & _ & _ & Htr & _ & _).
  rewrite Htr, !awaited_app, !submitted_app, loop_awaited.
  unfold preamble, report_lines. reflexivity.
Qed.

(** X8: every error caught in a pass is printed once by [console.error],
    and these are all the error dumps: their number is
    [blockOutOfRangeErrors + otherErrors] of the summary. *)
Theorem caught_errors_are_dumped (numSends : nat) (e : env) (w : W) (st : state W) :
  run_process ext numSends e w = (0, st) ->
  List.length (error_dumps (trace st))
  = blockOutOfRangeErrors (results st) + otherErrors (results st).
Proof.
  intros Hrun.
  destruct (exit_0_events ext numSends e w st Hrun)
    as (privateKey & acct & balance & w1 & prs & _ & _ & _ & _ & _ & Htr & Hres & Hall).
  rewrite Htr, !error_dumps_app, loop_error_dumps.
  unfold preamble, report_lines. simpl. rewrite app_nil_r, errors_counted.
  destruct (tally_counts (map pass_outcome prs) (new_results numSends))
    as (_ & _ & _ & Hb & Ho).
  rewrite <- Hres in Hb, Ho. simpl in Hb, Ho. lia.
Qed.

(** X9: the "Failed: ${errorMessage}" lines are as many as [otherErrors]
    counts, and none of their texts holds "block is out of range". *)
Theorem other_lines_never_hold_the_phrase
    (numSends : nat) (e : env) (w : W) (st : state W) :
  run_process ext numSends e w = (0, st) ->
  List.length (other_messages (trace st)) = otherErrors (results st)
  /\ Forall (fun m => includes m "block is out of range" = false)
            (other_messages (trace st)).
Proof.
  intros Hrun.
  destruct (exit_0_events ext numSends e w st Hrun)
    as (privateKey & acct & balance & w1 & prs & _ & _ & _ & _ & _ & Htr & Hres & Hall).
  rewrite Htr, !other_messages_app, loop_other_messages.
  unfold preamble, report_lines. simpl. rewrite app_nil_r.
  destruct (other_messages_clean prs Hall) as [Hclean Hlen]. split; [|exact Hclean].
  rewrite Hlen.
  destruct (tally_counts (map pass_outcome prs) (new_results numSends))
    as (_ & _ & _ & _ & Ho).
  rewrite <- Hres in Ho. simpl in Ho. lia.
Qed.

(** X10: with at least one send, a run that ends normally reports two
    finite percentages, of [successful] and of [failed] over [numSends], and
    the two counts add up to [numSends]. *)
Theorem report_percentages (numSends : nat) (e : env) (w : W) (st : state W) :
  run_process ext numSends e w = (0, st) ->
  0 < numSends ->
  percents (trace st)
  = [toFixed2 ext (successful (results st)) numSends;
     toFixed2 ext (failed (results st)) numSends]
  /\ successful (results st) + failed (results st) = numSends.
Proof.
  intros Hrun Hpos.
  destruct (exit_0_events ext numSends e w st Hrun)
    as (privateKey & acct & balance & w1 & prs & _ & _ & _ & _ & Hlen & Htr & Hres & Hall).
  destruct (tally_counts (map pass_outcome prs) (new_results numSends))
    as (Ht & Hs & Hf & _).
  rewrite <- Hres in Ht, Hs, Hf. simpl in Ht, Hs, Hf.
  pose proof (outcome_counts (map pass_outcome prs)) as Hcnt.
  rewrite length_map, Hlen in Hcnt. split; [|lia].
  rewrite Htr, !percents_app, loop_percents.
  unfold preamble, report_lines. simpl. rewrite Ht.
  destruct numSends as [|n]; [lia|]. reflexivity.
Qed.

(** X21: a run that has its key, its account and its balance and still
    exits with status 1 was left from inside a pass, by an error of the
    [catch] clause: the passes up to that one were started and submitted a
    transaction each, the counters record that pass as failed, the later
    passes were not run, no report was printed, and the last line is the
    error printed by the top-level handler. *)
Theorem error_in_catch_clause_stops_the_run
    (numSends : nat) (e : env) (w w1 : W) (privateKey : string)
    (acct : account) (balance : Z) (st : state W) :
  PRIVATE_KEY e = Some privateKey ->
  privateKey <> ""%string ->
  privateKeyToAccount ext privateKey = inl acct ->
  getBalance ext (rpcUrl_of e) (address acct) w = (inl balance, w1) ->
  run_process ext numSends e w = (1, st) ->
  exists k error before,
    k < numSends
    /\ started (trace st) = seq 1 (S k)
    /\ sends (trace st) = S k
    /\ List.length (outcomes (trace st)) = k
    /\ percents (trace st) = []
    /\ successful (results st) + failed (results st) = S k
    /\ trace st = before ++ [LogError (UncaughtLine error)].
Proof.
  intros Hk Hne Ha Hb Hrun.
  destruct (process_cases ext numSends e w w1 privateKey acct balance Hk Hne Ha Hb)
    as (prs & _ & [(st' & Hrun' & _) | (st' & error & pr & Hrun' & Hlen & C & Htr & Hres)]);
    rewrite Hrun' in Hrun; [discriminate|]. injection Hrun as <-.
  destruct (loop_facts (rpcUrl_of e) acct (parseEther ext "0.001") numSends prs 1)
    as (Ho & Hst & Hs).
  destruct (aborted_pass_facts (rpcUrl_of e) acct (parseEther ext "0.001")
              (1 + List.length prs) numSends pr C) as (Ho2 & Hst2 & Hs2).
  exists (List.length prs), error. eexists. split; [exact Hlen|].
  rewrite Htr, !started_app, !sends_app, !outcomes_app, !percents_app,
    Ho, Hst, Hs, Ho2, Hst2, Hs2, loop_percents.
  change (started (preamble ext numSends (rpcUrl_of e) acct balance)) with (@nil nat).
  change (sends (preamble ext numSends (rpcUrl_of e) acct balance)) with 0.
  change (outcomes (preamble ext numSends (rpcUrl_of e) acct balance)) with (@nil outcome).
  change (percents (preamble ext numSends (rpcUrl_of e) acct balance)) with (@nil string).
  change (started [LogError (UncaughtLine error)]) with (@nil nat).
  change (sends [LogError (UncaughtLine error)]) with 0.
  change (outcomes [LogError (UncaughtLine error)]) with (@nil outcome).
  change (percents [LogError (UncaughtLine error)]) with (@nil string).
  rewrite !app_nil_r. cbn [app].
  split; [|split; [|split; [|split; [|split]]]].
  - now rewrite seq_S.
  - lia.
  - now rewrite length_map.
  - destruct pr as [h r|h err|err]; [discriminate C | reflexivity | reflexivity].
  - rewrite Hres.
    destruct (tally_counts (map pass_outcome prs) (new_results numSends))
      as (_ & Hsu & Hf & _).
    pose proof (outcome_counts (map pass_outcome prs)) as Hcnt.
    rewrite length_map in Hcnt. simpl in *. lia.
  - rewrite !app_assoc. reflexivity.
Qed.

End ProcessProperties.

(** ** The usage lines *)

Section Usage.

Context {W : Type} (ext : Externals W).
Open Scope list_scope.

Ltac no_such_line H :=
  simpl in H; repeat (destruct H as [H|H]; [discriminate H|]); exact H.

Lemma attempt_prints_no_usage (rpcUrl : string) (acct : account) (amount : Z)
                              (i numSends : nat) (pr : pass_result) :
  ~ In (LogError MissingPrivateKey) (attempt_events rpcUrl acct amount i numSends pr).
Proof. intros H. destruct pr as [h r|h e|e]; no_such_line H. Qed.

Lemma loop_prints_no_usage (rpcUrl : string) (acct : account) (amount : Z)
                           (numSends : nat) (prs : list pass_result) :
  forall i : nat,
    ~ In (LogError MissingPrivateKey) (loop_events rpcUrl acct amount numSends i prs).
Proof.
  induction prs as [|pr rest IH]; intros i H; [exact H|].
  cbn [loop_events] in H. apply in_app_or in H as [H|H]; [|exact (IH _ H)].
  unfold pass_events, error_events in H. apply in_app_or in H as [H|H].
  - destruct pr as [h r|h e|e]; no_such_line H.
  - destruct (i <? numSends); no_such_line H.
Qed.

(** X2: the line "Error: PRIVATE_KEY environment variable is required" is
    printed exactly when [PRIVATE_KEY] is missing or empty; an empty key is
    handled as a missing one, and no run with a key prints it, however the
    run ends. *)
Theorem usage_printed_only_without_key (numSends : nat) (e : env) (w : W) :
  In (LogError MissingPrivateKey) (trace (snd (run_process ext numSends e w)))
  <-> PRIVATE_KEY e = None \/ PRIVATE_KEY e = Some ""%string.
Proof.
  destruct (PRIVATE_KEY e) as [[|c rest]|] eqn:Hkey.
  - unfold run_process. rewrite Hkey. simpl. split; [now right | now left].
  - split; [|intros [H|H]; discriminate H].
    intros H. exfalso.
    destruct (privateKeyToAccount ext (String c rest)) as [acct|err] eqn:Hacct.
    + destruct (getBalance ext (rpcUrl_of e) (address acct) w) as [[balance|err] w1] eqn:Hbal.
      * assert (Hne : String c rest <> ""%string) by discriminate.
        destruct (process_cases ext numSends e w w1 _ acct balance Hkey Hne Hacct Hbal)
          as (prs & _ & [(st & Hrun & _ & Htr & _)
                        | (st & err & pr & Hrun & _ & _ & Htr & _)]);
          rewrite Hrun in H; simpl in H; rewrite Htr in H;
          apply in_app_or in H as [H|H]; try (no_such_line H);
          apply in_app_or in H as [H|H];
          try (exact (loop_prints_no_usage _ _ _ _ _ _ H)); try (no_such_line H).
        apply in_app_or in H as [H|H]; [|no_such_line H].
        exact (attempt_prints_no_usage _ _ _ _ _ _ H).
      * unfold run_process in H. rewrite Hkey in H.
        unfold main_body, bind, liftE, call, console_log, emit, ret, initial in H.
        rewrite Hacct in H. simpl in H. rewrite Hbal in H. no_such_line H.
    + unfold run_process in H. rewrite Hkey in H.
      unfold main_body, bind, liftE, throw, initial in H.
      rewrite Hacct in H. no_such_line H.
  - unfold run_process. rewrite Hkey. simpl. split; [now left | now left].
Qed.

End Usage.

(** ** The logging transport *)

Module LoggingTransportProperties.
Import LoggingTransport.
Open Scope list_scope.

Lemma slice0_length (n : nat) :
  forall s : string, String.length (slice0 n s) = Nat.min n (String.length s).
Proof.
  unfold slice0. induction n as [|n IH]; intros [|c s]; simpl; auto.
Qed.

Lemma slice0_whole (n : nat) :
  forall s : string, String.length s <= n -> slice0 n s = s.
Proof.
  unfold slice0. induction n as [|n IH]; intros [|c s] H; simpl in *;
    try reflexivity; try lia.
  f_equal. apply IH. lia.
Qed.

(** X14: the parameters shown in a request line are cut at 80 characters of
    their JSON text, with "..." added when something was cut, so the text
    after the method is at most 84 characters; it is empty exactly when
    the call has no parameters or an empty list of them, and the whole JSON
    text when that has at most 80 characters. *)
Theorem paramsStr_is_bounded (args : rpc_args) :
  String.length (paramsStr args) <= 84
  /\ (paramsStr args = ""%string <-> params args = None \/ params args = Some [])
  /\ (forall ps, params args = Some ps -> ps <> [] ->
        String.length (stringify_array ps) <= 80 ->
        paramsStr args = (" " ++ stringify_array ps)%string).
Proof.
  unfold paramsStr. split; [|split].
  - destruct (params args) as [[|p ps]|]; [simpl; lia| |simpl; lia].
    change (0 <? List.length (p :: ps)) with true. cbv iota.
    rewrite !append_length, slice0_length.
    destruct (80 <? String.length (stringify_array (p :: ps)));
      cbn [String.length]; lia.
  - destruct (params args) as [[|p ps]|].
    + split; auto.
    + change (0 <? List.length (p :: ps)) with true. cbv iota.
      split; [discriminate | intros [H|H]; discriminate H].
    + split; auto.
  - intros ps -> Hne Hlen. destruct ps as [|p ps]; [congruence|].
    change (0 <? List.length (p :: ps)) with true. cbv iota.
    assert (Hlt : (80 <? String.length (stringify_array (p :: ps))) = false)
      by (apply Nat.ltb_ge; exact Hlen).
    rewrite Hlt, (slice0_whole 80 _ Hlen). now rewrite append_nil_r.
Qed.

(** The request line shows the parameters as the words above say. *)
Lemma paramsStr_truncated (args : rpc_args) : paramsStr args = truncated_params args.
Proof.
  unfold paramsStr, truncated_params.
  destruct (params args) as [[|p ps]|]; [reflexivity| |reflexivity].
  change (0 <? List.length (p :: ps)) with true. cbv iota zeta.
  destruct (String.length (stringify_array (p :: ps)) <=? 80) eqn:E.
  - apply Nat.leb_le in E.
    assert (Hlt : (80 <? String.length (stringify_array (p :: ps))) = false)
      by (apply Nat.ltb_ge; exact E).
    rewrite Hlt, (slice0_whole 80 _ E). now rewrite append_nil_r.
  - apply Nat.leb_gt in E.
    assert (Hlt : (80 <? String.length (stringify_array (p :: ps))) = true)
      by (apply Nat.ltb_lt; exact E).
    now rewrite Hlt.
Qed.

(** What a call prints once its HTTP request has settled. *)
Lemma request_resume_lines (args : rpc_args) (outcome : settled) :
  fst (request_resume args outcome) = exchange_lines (args, outcome).
Proof.
  unfold exchange_lines, request_resume, request_catch, printable_outcome, outcome_line,
    error_text.
  cbn [fst snd]. rewrite paramsStr_truncated.
  destruct outcome as [result|error].
  - destruct (summarize result) as [summary|error]; [reflexivity|].
    destruct (errorMsg error); reflexivity.
  - destruct (errorMsg error); reflexivity.
Qed.

(** The call a settlement resumes is the oldest one waiting under its id. *)
Lemma take_call_oldest (id : nat) (waiting : list (nat * rpc_args)) :
  take_call id waiting
  = match find (fun c => fst c =? id) waiting with
    | Some c => Some (snd c, drop_call id waiting)
    | None => None
    end.
Proof.
  induction waiting as [|[id' args] rest IH]; [reflexivity|].
  cbn [take_call find drop_call fst]. destruct (id' =? id); [reflexivity|].
  rewrite IH. destruct (find (fun c => fst c =? id) rest); reflexivity.
Qed.

Lemma run_console (schedule : list action) :
  forall st : loop_state,
    console (run schedule st)
    = console st ++ flat_map exchange_lines (exchanges (in_flight st) schedule).
Proof.
  induction schedule as [|a schedule IH]; intros st.
  - simpl. now rewrite app_nil_r.
  - change (run (a :: schedule) st) with (run schedule (step st a)). rewrite IH.
    destruct a as [id args | id outcome]; cbn [step exchanges].
    + cbn [in_flight console request_start]. now rewrite app_nil_r.
    + rewrite take_call_oldest.
      destruct (find (fun c => fst c =? id) (in_flight st)) as [c|]; [|reflexivity].
      cbn [in_flight console flat_map]. rewrite request_resume_lines.
      now rewrite <- app_assoc.
Qed.

Lemma exchanges_printable (schedule : list action) :
  forall waiting : list (nat * rpc_args),
    forallb printable schedule = true ->
    forallb (fun x => printable_outcome (snd x)) (exchanges waiting schedule) = true.
Proof.
  induction schedule as [|a schedule IH]; intros waiting H; [reflexivity|].
  cbn [forallb] in H. apply andb_true_iff in H as [Ha H].
  destruct a as [id args | id outcome]; cbn [exchanges]; [now apply IH|].
  destruct (find (fun c => fst c =? id) waiting); [|now apply IH].
  cbn [forallb snd]. cbn [printable] in Ha. rewrite Ha. now apply IH.
Qed.

Lemma paired_exchanges (xs : list (rpc_args * settled)) :
  forallb (fun x => printable_outcome (snd x)) xs = true ->
  paired (flat_map exchange_lines xs).
Proof.
  induction xs as [|x xs IH]; intros H; [constructor|].
  cbn [forallb] in H. apply andb_true_iff in H as [Hx H].
  cbn [flat_map]. unfold exchange_lines at 1. rewrite Hx. cbn [app].
  unfold outcome_line. destruct (snd x) as [result|error].
  - destruct (summarize result); constructor; now apply IH.
  - constructor. now apply IH.
Qed.


End LoggingTransportProperties.

(** ** The fetch hooks *)

Module FetchHooksProperties.
Import FetchHooks.
Open Scope list_scope.

Section Hooks.

Variable positive_text : string -> bool.

(** X18: for a request body that is an object with a non-empty string
    [method] and an array [params], the hook shows the same method and the
    same parameter text as [loggingTransport] does for that call. *)
Theorem request_hook_agrees_with_transport
    (props : list (string * value)) (m : string) (ps : list value) :
  get_prop "method" props = VStr m ->
  m <> ""%string ->
  get_prop "params" props = VArr ps ->
  onFetchRequest positive_text (Json (VObj props))
  = inl (HookRequestLine m
           (LoggingTransport.paramsStr
              {| LoggingTransport.method := m; LoggingTransport.params := Some ps |})).
Proof.
  intros Hm Hne Hp. unfold onFetchRequest, request_fields, field. rewrite Hm, Hp.
  unfold or_else. cbn [truthy].
  apply String.eqb_neq in Hne. rewrite Hne.
  cbn [negb has_params to_string LoggingTransport.and_then].
  unfold LoggingTransport.paramsStr. cbn [LoggingTransport.params].
  destruct ps as [|p ps]; [reflexivity|].
  change (0 <? List.length (p :: ps)) with true. reflexivity.
Qed.

End Hooks.

Lemma is_undefined_true (v : value) :
  LoggingTransport.is_undefined v = true <-> v = VUndefined.
Proof. destruct v; simpl; split; congruence. Qed.

Lemma response_try_json (v : value) :
  v <> VNull -> v <> VUndefined ->
  response_try (Json v)
  = if truthy (field "error" v) then
      LoggingTransport.and_then
        (to_string (field "code" (field "error" v))) (fun code =>
      LoggingTransport.and_then
        (to_string (field "message" (field "error" v))) (fun message =>
      inl [HookRpcErrorLine code message]))
    else if negb (LoggingTransport.is_undefined (field "result" v)) then
      match LoggingTransport.summarize (field "result" v) with
      | inl summary => inl [HookResultLine summary]
      | inr error => inr error
      end
    else inl [].
Proof. intros H1 H2. destruct v; try reflexivity; congruence. Qed.

Lemma response_try_lines (b : body) (lines : list hook_line) :
  response_try b = inl lines ->
  exists v, b = Json v /\ v <> VNull /\ v <> VUndefined
            /\ (lines = []
                /\ truthy (field "error" v) = false /\ field "result" v = VUndefined
                \/ List.length lines = 1
                   /\ (truthy (field "error" v) = true
                       \/ field "result" v <> VUndefined)).
Proof.
  intros R. destruct b as [| |v]; [discriminate R | discriminate R |].
  assert (Hv : v <> VNull /\ v <> VUndefined)
    by (destruct v; simpl in R; split; congruence).
  destruct Hv as [H1 H2]. exists v. repeat split; try assumption.
  rewrite (response_try_json v H1 H2) in R.
  destruct (truthy (field "error" v)) eqn:T.
  - right. split; [|now left]. unfold LoggingTransport.and_then in R.
    destruct (to_string (field "code" (field "error" v))); [|discriminate R].
    destruct (to_string (field "message" (field "error" v))); [|discriminate R].
    injection R as <-. reflexivity.
  - destruct (LoggingTransport.is_undefined (field "result" v)) eqn:U; cbn [negb] in R.
    + injection R as <-. left. apply is_undefined_true in U. auto.
    + right. destruct (LoggingTransport.summarize (field "result" v)); [|discriminate R].
      injection R as <-. split; [reflexivity|]. right.
      intros Hu. apply is_undefined_true in Hu. congruence.
Qed.

(** X19: [onFetchResponse] prints at most one line, and none at all exactly
    when the status is 200 and the body is JSON, not [null], with a falsy
    [error] and no [result]: then the request line printed before stays
    without a response line. *)
Theorem response_hook_can_stay_silent (status : nat) (statusText : string) (b : body) :
  List.length (onFetchResponse status statusText b) <= 1
  /\ (onFetchResponse status statusText b = []
      <-> status = 200
          /\ exists v, b = Json v /\ v <> VNull /\ v <> VUndefined
                       /\ truthy (field "error" v) = false
                       /\ field "result" v = VUndefined).
Proof.
  unfold onFetchResponse.
  destruct (status =? 200) eqn:E; cbn [negb].
  2:{ split; [simpl; lia|]. apply Nat.eqb_neq in E.
      split; [discriminate | intros [H _]; contradiction]. }
  apply Nat.eqb_eq in E.
  destruct (response_try b) as [lines|err] eqn:R.
  - destruct (response_try_lines b lines R)
      as (v & -> & H1 & H2 & [(-> & T & U) | (L & H)]).
    + split; [simpl; lia|]. split; [|reflexivity].
      intros _. split; [exact E|]. now exists v.
    + split; [lia|]. split.
      * intros ->. discriminate L.
      * intros [_ (v' & Hb & _ & _ & T & U)]. injection Hb as <-.
        destruct H as [H|H]; congruence.
  - split; [simpl; lia|]. split; [discriminate|].
    intros [_ (v & -> & H1 & H2 & T & U)].
    rewrite (response_try_json v H1 H2), T, U in R. discriminate R.
Qed.

End FetchHooksProperties.

(** ** The claims on concrete runs *)

Section ConcreteRuns.

Import Scripted.
Open Scope list_scope.

(** C1: one reverted transaction among the hundred sends of [main]:
    [successful + failed] is [total], but the reverted one is in [failed]
    only, so [blockOutOfRangeErrors + otherErrors] is 0 and [failed] is 1. *)
Theorem reverted_receipt_not_in_breakdown :
  let r := results (snd (main ext env_with_key one_reverted)) in
  r = {| total := 100; successful := 99; failed := 1;
         blockOutOfRangeErrors := 0; otherErrors := 0 |}
  /\ successful r + failed r = total r
  /\ blockOutOfRangeErrors r + otherErrors r <> failed r.
Proof. vm_compute. repeat split; discriminate. Qed.





(** A reverted transaction. *)
Lemma non_success_receipt_counts_failed_only_witness :
  let st := start 1 [Receipt tx_hash "reverted"] in
  status {| status := "reverted" |} <> "success"%string
  /\ exists st',
      try_catch (attempt ext url acct 1 1) (on_error 1 1) st = (inl tt, st')
      /\ failed (results st') = S (failed (results st))
      /\ successful (results st') = successful (results st)
      /\ blockOutOfRangeErrors (results st') = blockOutOfRangeErrors (results st)
      /\ otherErrors (results st') = otherErrors (results st)
      /\ trace st' = trace st ++
           [Log (SendingLine 1 1);
            Call (SendTransaction url (address acct) (address acct)
                                  (parseEther ext "0.001") (inl tx_hash));
            Log (WaitingLine 1 1 tx_hash);
            Call (WaitForTransactionReceipt url tx_hash (inl {| status := "reverted" |}));
            Log (FailedStatusLine 1 1)].
Proof.
  cbv zeta. split; [discriminate|].
  apply (non_success_receipt_counts_failed_only ext url acct 1 1
           (start 1 [Receipt tx_hash "reverted"]) tx_hash {| status := "reverted" |}
           [Receipt tx_hash "reverted"] []).
  - reflexivity.
  - reflexivity.
  - discriminate.
Defined.

(** Two passes into the hundred of [main]. *)
Lemma counters_invariant_preserved_witness :
  2 <= 100
  /\ results (start 100 four_passes) = new_results 100
  /\ exists r st_k j,
      for_loop ext url acct 100 2 1 (start 100 four_passes) = (r, st_k)
      /\ j <= 2
      /\ counters_invariant j (results st_k)
      /\ (r = inl tt ->
          j = 2
          /\ send_loop ext url acct 100 (start 100 four_passes)
             = for_loop ext url acct 100 (100 - 2) 3 st_k)
      /\ (throws_catchable ext -> r = inl tt)
      /\ (forall (i j0 : nat) (st0 : state (list pass)),
            counters_invariant j0 (results st0) ->
            counters_invariant (S j0) (results (snd (iteration ext url acct i 100 st0)))).
Proof.
  split; [lia|]. split; [reflexivity|].
  apply (counters_invariant_preserved ext url acct 100 2 (start 100 four_passes));
    [lia | reflexivity].
Defined.




(** Every error of the tame client gets through the [catch] clause. *)
Lemma tame_catchable (e : thrown) : catchable (Tame.tame e) = true.
Proof. unfold Tame.tame. destruct (catchable e) eqn:C; [exact C | reflexivity]. Qed.

Lemma tame_throws_catchable : throws_catchable Tame.ext.
Proof.
  split.
  - intros u a to v w e w'. cbn [sendTransaction Tame.ext]. unfold Tame.tame_result.
    destruct (sendTransaction ext u a to v w) as [[h|e0] w0]; intros H;
      [discriminate|]. injection H as <- _. apply tame_catchable.
  - intros u h w e w'. cbn [waitForTransactionReceipt Tame.ext]. unfold Tame.tame_result.
    destruct (waitForTransactionReceipt ext u h w) as [[r|e0] w0]; intros H;
      [discriminate|]. injection H as <- _. apply tame_catchable.
Qed.


(** No key: the script of the outside world is left unread. *)
Lemma missing_private_key_exits_1_witness :
  PRIVATE_KEY env_without_key = None
  /\ exists st,
      main ext env_without_key four_passes = (1, st)
      /\ trace st = [LogError MissingPrivateKey; LogError UsageHint]
      /\ filter is_call (trace st) = []
      /\ world st = four_passes.
Proof.
  split; [reflexivity|].
  apply (missing_private_key_exits_1 ext env_without_key four_passes). reflexivity.
Defined.

(** A number of 22 digits is printed in exponent form, "-3.2019e+21",
    which holds no "-32019": the error is counted under [otherErrors]. *)
Example large_number_in_exponent_form :
  catchable Faulty.large_gas = true /\ error_matches Faulty.large_gas = false.
Proof. split; reflexivity. Qed.

(** [JSON.stringify] throws on a BigInt, whatever the message says. *)
Example bigint_details_throw :
  errorDetails Faulty.bigint_details
  = inr (type_error "Do not know how to serialize a BigInt")
  /\ catchable Faulty.bigint_details = false.
Proof. split; reflexivity. Qed.

(** An empty key and an empty URL: the key counts as missing. *)
Example empty_key_is_missing :
  main ext Faulty.env_empty_key four_passes
  = (1, {| world := four_passes;
           trace := [LogError MissingPrivateKey; LogError UsageHint];
           results := new_results 0 |}).
Proof. reflexivity. Qed.

End ConcreteRuns.

Section MoreConcreteRuns.

Import Scripted Faulty.
Open Scope list_scope.

(** A key that is not hexadecimal. *)
Lemma invalid_key_exits_1_witness :
  run_process picky 100 env_bad_key four_passes
  = (1, {| world := four_passes;
           trace := [LogError (UncaughtLine invalid_key)];
           results := new_results 0 |}).
Proof.
  apply (invalid_key_exits_1 picky 100 env_bad_key four_passes "not-a-key" invalid_key);
    [reflexivity | discriminate | reflexivity].
Defined.

(** The endpoint cannot be reached. *)
Lemma balance_failure_exits_1_witness :
  exists st,
    run_process offline 100 env_with_key four_passes = (1, st)
    /\ world st = four_passes
    /\ sends (trace st) = 0
    /\ percents (trace st) = [].
Proof.
  destruct (balance_failure_exits_1 offline 100 env_with_key four_passes four_passes
              "0x0123456789abcdef" acct network_down)
    as (st & Hrun & Hw & _ & Hs & Hp);
    [reflexivity | discriminate | reflexivity | reflexivity |].
  exists st. repeat split; assumption.
Defined.

(** The run used below: the four passes, then 96 with the script
    exhausted; it exits with status 0. *)
Lemma four_passes_run :
  run_process ext 100 env_with_key four_passes
  = (0, snd (run_process ext 100 env_with_key four_passes)).
Proof. vm_compute. reflexivity. Qed.


Lemma pauses_between_passes_witness :
  delays (trace (snd (run_process ext 100 env_with_key four_passes))) = repeat 500 99.
Proof.
  apply (pauses_between_passes ext 100 env_with_key four_passes). exact four_passes_run.
Defined.

Lemma receipts_awaited_for_submitted_hashes_witness :
  awaited (trace (snd (run_process ext 100 env_with_key four_passes)))
  = submitted (trace (snd (run_process ext 100 env_with_key four_passes)))
  /\ List.length (submitted (trace (snd (run_process ext 100 env_with_key four_passes)))) = 3.
Proof.
  split.
  - apply (receipts_awaited_for_submitted_hashes ext 100 env_with_key four_passes).
    exact four_passes_run.
  - vm_compute. reflexivity.
Defined.

Lemma caught_errors_are_dumped_witness :
  List.length (error_dumps (trace (snd (run_process ext 100 env_with_key four_passes))))
  = blockOutOfRangeErrors (results (snd (run_process ext 100 env_with_key four_passes)))
    + otherErrors (results (snd (run_process ext 100 env_with_key four_passes))).
Proof.
  apply (caught_errors_are_dumped ext 100 env_with_key four_passes). exact four_passes_run.
Defined.

Lemma other_lines_never_hold_the_phrase_witness :
  List.length (other_messages (trace (snd (run_process ext 100 env_with_key four_passes))))
  = otherErrors (results (snd (run_process ext 100 env_with_key four_passes)))
  /\ Forall (fun m => includes m "block is out of range" = false)
            (other_messages (trace (snd (run_process ext 100 env_with_key four_passes)))).
Proof.
  apply (other_lines_never_hold_the_phrase ext 100 env_with_key four_passes).
  exact four_passes_run.
Defined.

Lemma report_percentages_witness :
  0 < 100
  /\ percents (trace (snd (run_process ext 100 env_with_key four_passes)))
     = [toFixed2 ext (successful (results (snd (run_process ext 100 env_with_key four_passes)))) 100;
        toFixed2 ext (failed (results (snd (run_process ext 100 env_with_key four_passes)))) 100]
  /\ successful (results (snd (run_process ext 100 env_with_key four_passes)))
     + failed (results (snd (run_process ext 100 env_with_key four_passes))) = 100.
Proof.
  split; [lia|].
  apply (report_percentages ext 100 env_with_key four_passes);
    [exact four_passes_run | lia].
Defined.

(** With the tame client and a key, the exit status is 0. *)
Lemma exit_status_is_decided_before_the_loop_witness :
  throws_catchable Tame.ext
  /\ (fst (run_process Tame.ext 100 env_with_key four_passes) = 0
      <-> exists privateKey acct balance w1,
            PRIVATE_KEY env_with_key = Some privateKey
            /\ privateKey <> ""%string
            /\ privateKeyToAccount Tame.ext privateKey = inl acct
            /\ getBalance Tame.ext (rpcUrl_of env_with_key) (address acct) four_passes
               = (inl balance, w1))
  /\ (fst (run_process Tame.ext 100 env_with_key four_passes) = 0
      \/ fst (run_process Tame.ext 100 env_with_key four_passes) = 1).
Proof.
  split; [exact tame_throws_catchable|].
  apply (exit_status_is_decided_before_the_loop Tame.ext 100 env_with_key four_passes).
  exact tame_throws_catchable.
Defined.

(** An error with another code: counted under [otherErrors]. *)
Lemma classification_is_exact_witness :
  errorMessage insufficient_funds = inl "insufficient funds for gas * price + value"%string
  /\ details_of insufficient_funds = Data VUndefined
  /\ exists s matched,
      stringify (or_else VUndefined (VObj [])) = Some s
      /\ on_error 55 100 insufficient_funds (start 100 [])
         = (inl tt, after_error 55 100 insufficient_funds matched (start 100 []))
      /\ (matched = true
          <-> includes "insufficient funds for gas * price + value"
                       "block is out of range" = true
              \/ occurs_any_case s "block is out of range"
              \/ includes s "-32019" = true).
Proof.
  split; [reflexivity|]. split; [reflexivity|].
  apply (classification_is_exact 55 100 insufficient_funds
           "insufficient funds for gas * price + value" VUndefined (start 100 []));
    reflexivity.
Defined.

(** The error of the README: its details are the string of the node. *)
Lemma string_details_are_searched_witness :
  on_error 55 100 forno_error (start 100 [])
  = (inl tt, after_error 55 100 forno_error true (start 100 [])).
Proof.
  apply (string_details_are_searched 55 100 forno_error
           "rpc request failed. details: block is out of range" "block is out of range").
  - reflexivity.
  - reflexivity.
  - left. exists "block is out of range"%string. split; reflexivity.
Defined.

(** The code as a number, inside an array inside a property. *)
Lemma pattern_nested_in_details_is_found_witness :
  on_error 55 100 nested_code (start 100 [])
  = (inl tt, after_error 55 100 nested_code true (start 100 [])).
Proof.
  apply (pattern_nested_in_details_is_found 55 100 nested_code "execution failed"
           (VObj [("cause", VArr [VStr "retry 3";
                                  VObj [("code", VNum "-32019"); ("data", VNull)]])])
           (VNum "-32019") "-32019").
  - reflexivity.
  - reflexivity.
  - eapply inside_prop; [left; reflexivity|].
    eapply inside_item; [right; left; reflexivity|].
    eapply inside_prop; [left; reflexivity|]. apply inside_here.
  - reflexivity.
  - right. reflexivity.
Defined.

Lemma request_hook_agrees_with_transport_witness :
  FetchHooks.onFetchRequest (fun _ => false) (FetchHooks.Json (VObj balance_request))
  = inl (FetchHooks.HookRequestLine "eth_getBalance"
           (LoggingTransport.paramsStr
              {| LoggingTransport.method := "eth_getBalance";
                 LoggingTransport.params :=
                   Some [VStr "0x6AD01Ac6841b67f27DC1A039FefBF5804003d6a4";
                         VStr "latest"] |})).
Proof.
  apply (FetchHooksProperties.request_hook_agrees_with_transport
           (fun _ => false) balance_request "eth_getBalance");
    [reflexivity | discriminate | reflexivity].
Defined.

(** Two calls in flight at once: the lines of the call that completes
    first come first, each request line with its own outcome. *)
Example concurrent_calls_stay_paired :
  let nonce := {| LoggingTransport.method := "eth_getTransactionCount";
                  LoggingTransport.params := Some [VStr "0x6AD0"; VStr "pending"] |} in
  let block := {| LoggingTransport.method := "eth_getBlockByNumber";
                  LoggingTransport.params := Some [VStr "0x2fa3fe6"; VBool true] |} in
  LoggingTransport.console
    (LoggingTransport.run
       [LoggingTransport.Invoke 1 nonce; LoggingTransport.Invoke 2 block;
        LoggingTransport.Settle 2 (LoggingTransport.Rejected forno_error);
        LoggingTransport.Settle 1 (LoggingTransport.Resolved (VStr "0x14c"))]
       LoggingTransport.idle)
  = [RpcRequestLine "eth_getBlockByNumber"
       (" [" ++ json_quote "0x2fa3fe6" ++ ",true]")%string;
     RpcErrorLine "block is out of range";
     RpcRequestLine "eth_getTransactionCount"
       (" [" ++ json_quote "0x6AD0" ++ "," ++ json_quote "pending" ++ "]")%string;
     RpcResultLine "0x14c"].
Proof. vm_compute. reflexivity. Qed.


(** A success, then an error whose message is a number. *)
Lemma error_in_catch_clause_stops_the_run_witness :
  let script := [Receipt tx_hash "success"; SendThrows numeric_message] in
  run_process ext 100 env_with_key script
  = (1, snd (run_process ext 100 env_with_key script))
  /\ exists k error before,
      k < 100
      /\ started (trace (snd (run_process ext 100 env_with_key script))) = seq 1 (S k)
      /\ sends (trace (snd (run_process ext 100 env_with_key script))) = S k
      /\ List.length (outcomes (trace (snd (run_process ext 100 env_with_key script)))) = k
      /\ percents (trace (snd (run_process ext 100 env_with_key script))) = []
      /\ successful (results (snd (run_process ext 100 env_with_key script)))
         + failed (results (snd (run_process ext 100 env_with_key script))) = S k
      /\ trace (snd (run_process ext 100 env_with_key script))
         = before ++ [LogError (UncaughtLine error)].
Proof.
  cbv zeta. split; [vm_compute; reflexivity|].
  apply (error_in_catch_clause_stops_the_run ext 100 env_with_key
           [Receipt tx_hash "success"; SendThrows numeric_message]
           [Receipt tx_hash "success"; SendThrows numeric_message]
           "0x0123456789abcdef" acct 1000000000000000000%Z);
    [reflexivity | discriminate | reflexivity | reflexivity | vm_compute; reflexivity].
Defined.

End MoreConcreteRuns.
